(** * Lane-change arbitration: [modules/planning/common/change_lane_decider.cc]

    A shallow embedding of [ChangeLaneDecider] and the properties of its
    state machine ([Apply]) and of its clearance scan ([IsClearToChangeLane]).

    - [double] is Rocq's primitive binary64 [float]: comparisons and
      arithmetic are the IEEE 754 ones the C++ code runs, NaN included.
    - [std::string] is [string]; [std::list<ReferenceLineInfo>] is a [list].
    - The process-wide [PlanningContext] singleton and the obstacles reached
      through pointers are threaded as explicit state.  Both states carry a
      journal of the writes made to them, which the frame properties read. *)

From Stdlib Require Import List String Bool ZArith Lia Floats.
Import ListNotations.

Local Open Scope bool_scope.
Local Open Scope string_scope.
Local Open Scope list_scope.

(** ** Data model *)

(** [ChangeLaneStatus::Status] of the planning status message. *)
Inductive Status : Set :=
| IN_CHANGE_LANE
| CHANGE_LANE_FAILED
| CHANGE_LANE_SUCCESS.

Definition Status_eqb (a b : Status) : bool :=
  match a, b with
  | IN_CHANGE_LANE, IN_CHANGE_LANE
  | CHANGE_LANE_FAILED, CHANGE_LANE_FAILED
  | CHANGE_LANE_SUCCESS, CHANGE_LANE_SUCCESS => true
  | _, _ => false
  end.

(** The [ChangeLaneStatus] message.  [status] is an optional field:
    [has_status()] is [None] until the first update. *)
Record ChangeLaneStatus : Set := mkChangeLaneStatus {
  status : option Status;
  path_id : string;
  timestamp : float
}.

Definition has_status (st : ChangeLaneStatus) : bool :=
  match status st with Some _ => true | None => false end.

(** [prev_status->status() == code].  [Apply] reads [status()] only once
    [has_status()] holds. *)
Definition status_is (st : ChangeLaneStatus) (code : Status) : bool :=
  match status st with Some c => Status_eqb c code | None => false end.

(** [PlanningContext::Instance()->mutable_planning_status()->mutable_change_lane()],
    with the journal of the records [UpdateStatus] has written, newest first. *)
Record PlanningContext : Set := mkPlanningContext {
  change_lane : ChangeLaneStatus;
  change_lane_writes : list ChangeLaneStatus
}.

(** The command-line flags of [planning_gflags.h] the decider reads. *)
Record PlanningGflags : Set := mkPlanningGflags {
  FLAGS_reckless_change_lane : bool;
  FLAGS_change_lane_fail_freeze_time : float;
  FLAGS_change_lane_success_freeze_time : float
}.

Inductive GearPosition : Set :=
| GEAR_NEUTRAL | GEAR_DRIVE | GEAR_REVERSE | GEAR_PARKING
| GEAR_LOW | GEAR_INVALID | GEAR_NONE.

Record VehicleState : Set := mkVehicleState {
  linear_velocity : float;
  heading : float;
  gear : GearPosition
}.

Record SLPoint : Set := mkSLPoint { sl_s : float; sl_l : float }.

Record SLBoundary : Set := mkSLBoundary { start_s : float; end_s : float }.

(** An obstacle as the decider reads it.  [Trajectory] lists the heading
    [path_point().theta()] of each predicted trajectory point, and
    [PerceptionPolygon] the [(x, y)] of each polygon vertex. *)
Record Obstacle : Set := mkObstacle {
  Id : string;
  IsVirtual : bool;
  IsStatic : bool;
  PerceptionPolygon : list (float * float);
  Trajectory : list float;
  speed : float;
  IsLaneChangeBlocking : bool
}.

Definition SetLaneChangeBlocking (b : bool) (o : Obstacle) : Obstacle :=
  mkObstacle (Id o) (IsVirtual o) (IsStatic o) (PerceptionPolygon o)
             (Trajectory o) (speed o) b.

(** [PathDecision]: the obstacles in the order of [obstacles().Items()], and
    the journal of the [SetLaneChangeBlocking] calls made through [Find],
    newest first. *)
Record PathDecision : Set := mkPathDecision {
  obstacles : list Obstacle;
  blocking_writes : list (string * bool)
}.

(** One candidate path.  [XYToSL] is the projection of its reference line. *)
Record ReferenceLineInfo : Set := mkReferenceLineInfo {
  IsChangeLanePath : bool;
  Lanes_Id : string;
  AdcSlBoundary : SLBoundary;
  vehicle_state : VehicleState;
  XYToSL : float -> float -> SLPoint;
  path_decision : PathDecision
}.

(** ** The status store *)

(** [UpdateStatus(timestamp, status_code, path_id)]: the three setters, as
    one write. *)
Definition UpdateStatus (timestamp : float) (status_code : Status)
    (path_id : string) (ctx : PlanningContext) : PlanningContext :=
  let st := mkChangeLaneStatus (Some status_code) path_id timestamp in
  mkPlanningContext st (st :: change_lane_writes ctx).

(** [UpdateStatus(status_code, path_id)]: the same at the clock's reading. *)
Definition UpdateStatus_now (clock_now : float) (status_code : Status)
    (path_id : string) (ctx : PlanningContext) : PlanningContext :=
  UpdateStatus clock_now status_code path_id ctx.

(** ** Reordering and pruning the candidates *)

(** The iterator walk of [PrioritizeChangeLane]: [visited] holds, newest
    first, the candidates already passed.  The first change-lane candidate is
    spliced to the front and the walk stops. *)
Fixpoint splice_first_change_lane (visited rest : list ReferenceLineInfo)
  : list ReferenceLineInfo :=
  match rest with
  | [] => rev visited
  | c :: rest' =>
      if IsChangeLanePath c then c :: rev visited ++ rest'
      else splice_first_change_lane (c :: visited) rest'
  end.

Definition PrioritizeChangeLane (reference_line_info : list ReferenceLineInfo)
  : list ReferenceLineInfo :=
  match reference_line_info with
  | [] => []
  | _ => splice_first_change_lane [] reference_line_info
  end.

Fixpoint RemoveChangeLane (reference_line_info : list ReferenceLineInfo)
  : list ReferenceLineInfo :=
  match reference_line_info with
  | [] => []
  | c :: rest =>
      if IsChangeLanePath c then RemoveChangeLane rest
      else c :: RemoveChangeLane rest
  end.

Fixpoint GetCurrentPathId (reference_line_info : list ReferenceLineInfo)
  : string :=
  match reference_line_info with
  | [] => ""
  | info :: rest =>
      if negb (IsChangeLanePath info) then Lanes_Id info
      else GetCurrentPathId rest
  end.

Definition string_empty (s : string) : bool :=
  match s with EmptyString => true | _ => false end.

(** ** The state machine *)

(** [Apply]: [now] is the reading [Clock::NowInSeconds()] gives in this call.
    The result is the returned flag, the candidate list as left behind, and
    the planning context as left behind. *)
Definition Apply (flags : PlanningGflags) (now : float)
    (reference_line_info : list ReferenceLineInfo) (ctx : PlanningContext)
  : bool * list ReferenceLineInfo * PlanningContext :=
  match reference_line_info with
  | [] => (false, reference_line_info, ctx)
  | front :: _ =>
    if FLAGS_reckless_change_lane flags then
      (true, PrioritizeChangeLane reference_line_info, ctx)
    else
      let prev_status := change_lane ctx in
      if negb (has_status prev_status) then
        (true, reference_line_info,
         UpdateStatus now CHANGE_LANE_SUCCESS
                      (GetCurrentPathId reference_line_info) ctx)
      else
        let has_change_lane := (1 <? List.length reference_line_info)%nat in
        if negb has_change_lane then
          let path_id := Lanes_Id front in
          if status_is prev_status CHANGE_LANE_SUCCESS then
            (true, reference_line_info, ctx)
          else if status_is prev_status IN_CHANGE_LANE then
            (true, reference_line_info,
             UpdateStatus now CHANGE_LANE_SUCCESS path_id ctx)
          else if status_is prev_status CHANGE_LANE_FAILED then
            (true, reference_line_info, ctx)
          else
            (false, reference_line_info, ctx)
        else
          let current_path_id := GetCurrentPathId reference_line_info in
          if string_empty current_path_id then
            (false, reference_line_info, ctx)
          else if status_is prev_status IN_CHANGE_LANE then
            if String.eqb (path_id prev_status) current_path_id then
              (true, PrioritizeChangeLane reference_line_info, ctx)
            else
              (true, RemoveChangeLane reference_line_info,
               UpdateStatus now CHANGE_LANE_SUCCESS current_path_id ctx)
          else if status_is prev_status CHANGE_LANE_FAILED then
            if (now - timestamp prev_status
                <? FLAGS_change_lane_fail_freeze_time flags)%float then
              (true, RemoveChangeLane reference_line_info, ctx)
            else
              (true, reference_line_info,
               UpdateStatus now IN_CHANGE_LANE current_path_id ctx)
          else if status_is prev_status CHANGE_LANE_SUCCESS then
            if (now - timestamp prev_status
                <? FLAGS_change_lane_success_freeze_time flags)%float then
              (true, RemoveChangeLane reference_line_info, ctx)
            else
              (true, PrioritizeChangeLane reference_line_info,
               UpdateStatus now IN_CHANGE_LANE current_path_id ctx)
          else
            (false, reference_line_info, ctx)
  end.

(** ** The hysteresis filter *)

Definition HysteresisFilter (obstacle_distance safe_distance
    distance_buffer : float) (is_obstacle_blocking : bool) : bool :=
  if is_obstacle_blocking then
    (obstacle_distance <? safe_distance + distance_buffer)%float
  else
    (obstacle_distance <? safe_distance - distance_buffer)%float.

(** ** The clearance scan *)

(** [std::numeric_limits<double>::max()]. *)
Definition DBL_MAX : float := 0x1.fffffffffffffp+1023%float.

(** [M_PI] of [<cmath>], the binary64 nearest to pi. *)
Definition M_PI : float := 0x1.921fb54442d18p+1%float.

(** [std::fmin] and [std::fmax]: a NaN argument yields the other argument. *)
Definition fmin (x y : float) : float :=
  if is_nan x then y
  else if is_nan y then x
  else if (y <? x)%float then y else x.

Definition fmax (x y : float) : float :=
  if is_nan x then y
  else if is_nan y then x
  else if (x <? y)%float then y else x.

(** The bounding box of the projected polygon, in the path's SL frame. *)
Record SLBox : Set := mkSLBox {
  box_start_s : float;
  box_end_s : float;
  box_start_l : float;
  box_end_l : float
}.

Definition kLateralShift : float := 2.5%float.
Definition kSafeTimeOnSameDirection : float := 3.0%float.
Definition kSafeTimeOnOppositeDirection : float := 5.0%float.
Definition kForwardMinSafeDistanceOnSameDirection : float := 6.0%float.
Definition kBackwardMinSafeDistanceOnSameDirection : float := 8.0%float.
Definition kForwardMinSafeDistanceOnOppositeDirection : float := 50.0%float.
Definition kBackwardMinSafeDistanceOnOppositeDirection : float := 1.0%float.
Definition kDistanceBuffer : float := 0.5%float.

Section Clearance.

(** [common::math::NormalizeAngle] lives outside this file: it is taken as
    a parameter. *)
Variable NormalizeAngle : float -> float.

Definition ego_start_s (info : ReferenceLineInfo) : float :=
  start_s (AdcSlBoundary info).
Definition ego_end_s (info : ReferenceLineInfo) : float :=
  end_s (AdcSlBoundary info).
Definition ego_v (info : ReferenceLineInfo) : float :=
  abs (linear_velocity (vehicle_state info)).

(** One turn of the loop over the polygon's points. *)
Definition extend_box (info : ReferenceLineInfo) (box : SLBox)
    (p : float * float) : SLBox :=
  let sl_point := XYToSL info (fst p) (snd p) in
  mkSLBox (fmin (box_start_s box) (sl_s sl_point))
          (fmax (box_end_s box) (sl_s sl_point))
          (fmin (box_start_l box) (sl_l sl_point))
          (fmax (box_end_l box) (sl_l sl_point)).

Definition sl_box (info : ReferenceLineInfo) (obstacle : Obstacle) : SLBox :=
  fold_left (extend_box info) (PerceptionPolygon obstacle)
            (mkSLBox DBL_MAX (- DBL_MAX) DBL_MAX (- DBL_MAX)).

(** The obstacles the loop passes over with [continue]: virtual or static
    ones, and on a change-lane path those wholly outside the corridor. *)
Definition out_of_corridor (info : ReferenceLineInfo) (obstacle : Obstacle)
  : bool :=
  IsChangeLanePath info &&
  ((box_end_l (sl_box info obstacle) <? - kLateralShift)%float
   || (kLateralShift <? box_start_l (sl_box info obstacle))%float).

Definition skipped (info : ReferenceLineInfo) (obstacle : Obstacle) : bool :=
  (IsVirtual obstacle || IsStatic obstacle) || out_of_corridor info obstacle.

Definition HasTrajectory (obstacle : Obstacle) : bool :=
  match Trajectory obstacle with [] => false | _ :: _ => true end.

(** The first predicted trajectory point's heading,
    [Trajectory().trajectory_point(0).path_point().theta()]. *)
Definition trajectory_theta_0 (obstacle : Obstacle) : float :=
  hd 0%float (Trajectory obstacle).

Definition same_direction (info : ReferenceLineInfo) (obstacle : Obstacle)
  : bool :=
  if HasTrajectory obstacle then
    let obstacle_moving_direction := trajectory_theta_0 obstacle in
    let vehicle_moving_direction :=
      match gear (vehicle_state info) with
      | GEAR_REVERSE =>
          NormalizeAngle (heading (vehicle_state info) + M_PI)%float
      | _ => heading (vehicle_state info)
      end in
    let heading_difference :=
      abs (NormalizeAngle
             (obstacle_moving_direction - vehicle_moving_direction)%float) in
    (heading_difference <? M_PI / 2.0)%float
  else
    true.

Definition kForwardSafeDistance (info : ReferenceLineInfo)
    (obstacle : Obstacle) : float :=
  if same_direction info obstacle then
    fmax kForwardMinSafeDistanceOnSameDirection
         ((ego_v info - speed obstacle) * kSafeTimeOnSameDirection)%float
  else
    fmax kForwardMinSafeDistanceOnOppositeDirection
         ((ego_v info + speed obstacle) * kSafeTimeOnOppositeDirection)%float.

Definition kBackwardSafeDistance (info : ReferenceLineInfo)
    (obstacle : Obstacle) : float :=
  if same_direction info obstacle then
    fmax kBackwardMinSafeDistanceOnSameDirection
         ((speed obstacle - ego_v info) * kSafeTimeOnSameDirection)%float
  else
    kBackwardMinSafeDistanceOnOppositeDirection.

(** The condition of the final [if] of the loop body. *)
Definition blocks (info : ReferenceLineInfo) (obstacle : Obstacle) : bool :=
  HysteresisFilter (ego_start_s info - box_end_s (sl_box info obstacle))%float
                   (kBackwardSafeDistance info obstacle) kDistanceBuffer
                   (IsLaneChangeBlocking obstacle)
  && HysteresisFilter
       (box_start_s (sl_box info obstacle) - ego_end_s info)%float
       (kForwardSafeDistance info obstacle) kDistanceBuffer
       (IsLaneChangeBlocking obstacle).

(** [path_decision()->Find(id)]: the registry keeps one obstacle per id. *)
Fixpoint Find (id : string) (obs : list Obstacle) : option Obstacle :=
  match obs with
  | [] => None
  | o :: rest => if String.eqb (Id o) id then Some o else Find id rest
  end.

Fixpoint store_blocking (id : string) (b : bool) (obs : list Obstacle)
  : list Obstacle :=
  match obs with
  | [] => []
  | o :: rest =>
      if String.eqb (Id o) id then SetLaneChangeBlocking b o :: rest
      else o :: store_blocking id b rest
  end.

(** [path_decision()->Find(id)->SetLaneChangeBlocking(b)]. *)
Definition Find_SetLaneChangeBlocking (id : string) (b : bool)
    (pd : PathDecision) : PathDecision :=
  mkPathDecision (store_blocking id b (obstacles pd))
                 ((id, b) :: blocking_writes pd).

(** The loop over [obstacles().Items()].  The pointers of [Items()] are
    taken once, before the loop; a pointer is modelled by the id of its
    obstacle and dereferenced in the registry as the loop has left it.
    Every pointer of [Items()] has its obstacle in the registry, so the
    [None] branch is never taken from [IsClearToChangeLane]. *)
Fixpoint scan_obstacles (info : ReferenceLineInfo) (items : list string)
    (pd : PathDecision) : bool * PathDecision :=
  match items with
  | [] => (true, pd)
  | ptr :: rest =>
      match Find ptr (obstacles pd) with
      | None => scan_obstacles info rest pd
      | Some obstacle =>
          if IsVirtual obstacle || IsStatic obstacle then
            scan_obstacles info rest pd
          else if out_of_corridor info obstacle then
            scan_obstacles info rest pd
          else if blocks info obstacle then
            (false, Find_SetLaneChangeBlocking (Id obstacle) true pd)
          else
            scan_obstacles info rest
              (Find_SetLaneChangeBlocking (Id obstacle) false pd)
      end
  end.

Definition Items (pd : PathDecision) : list string :=
  map Id (obstacles pd).

Definition IsClearToChangeLane (info : ReferenceLineInfo)
  : bool * PathDecision :=
  scan_obstacles info (Items (path_decision info)) (path_decision info).

(** The scan as a recursion on the obstacles themselves: the flag returned,
    the obstacles as left behind, and the writes in the order made. *)
Fixpoint scan_outcome (info : ReferenceLineInfo) (todo : list Obstacle)
  : bool * list Obstacle * list (string * bool) :=
  match todo with
  | [] => (true, [], [])
  | o :: rest =>
      if skipped info o then
        let '(ok, obs, w) := scan_outcome info rest in (ok, o :: obs, w)
      else if blocks info o then
        (false, SetLaneChangeBlocking true o :: rest, [(Id o, true)])
      else
        let '(ok, obs, w) := scan_outcome info rest in
        (ok, SetLaneChangeBlocking false o :: obs, (Id o, false) :: w)
  end.

End Clearance.

(** ** Vocabulary of the properties *)

(** The number of change-lane candidates of a sequence. *)
Definition change_lane_count (l : list ReferenceLineInfo) : nat :=
  List.length (filter IsChangeLanePath l).

(** The current candidate: the first one that is not a change-lane path. *)
Definition current_candidate (l : list ReferenceLineInfo)
  : option ReferenceLineInfo :=
  find (fun c => negb (IsChangeLanePath c)) l.

(** "Prioritize", in the words of the design: the first change-lane
    candidate moves to the front, the others keep their order; nothing moves
    when there is none. *)
Inductive Prioritized : list ReferenceLineInfo -> list ReferenceLineInfo -> Prop :=
| Prioritized_none : forall l,
    Forall (fun c => IsChangeLanePath c = false) l ->
    Prioritized l l
| Prioritized_front : forall pre c post,
    Forall (fun c' => IsChangeLanePath c' = false) pre ->
    IsChangeLanePath c = true ->
    Prioritized (pre ++ c :: post) (c :: pre ++ post).

(** "Discard", in the words of the design: every change-lane candidate is
    removed, the others keep their order. *)
Definition Discarded (l : list ReferenceLineInfo) : list ReferenceLineInfo :=
  filter (fun c => negb (IsChangeLanePath c)) l.

(** What a completed scan leaves of an obstacle: the flag cleared when the
    obstacle was evaluated, the obstacle untouched when it was passed over. *)
Definition mark_clear (info : ReferenceLineInfo) (o : Obstacle) : Obstacle :=
  if skipped info o then o else SetLaneChangeBlocking false o.

(** No evaluated obstacle of [l] blocks. *)
Definition no_blocker (NormalizeAngle : float -> float)
    (info : ReferenceLineInfo) (l : list Obstacle) : Prop :=
  Forall (fun o => skipped info o = false ->
                   blocks NormalizeAngle info o = false) l.

(** Sample data: a vehicle at rest on a straight reference line. *)
Definition sample_candidate (change : bool) (id : string) : ReferenceLineInfo :=
  mkReferenceLineInfo change id (mkSLBoundary 0 4)
                      (mkVehicleState 0 0 GEAR_DRIVE)
                      (fun x y => mkSLPoint x y) (mkPathDecision [] []).

Definition lane_A : ReferenceLineInfo := sample_candidate false "A".
Definition lane_B : ReferenceLineInfo := sample_candidate true "B".
Definition lane_C : ReferenceLineInfo := sample_candidate true "C".
Definition lane_unnamed : ReferenceLineInfo := sample_candidate false "".

(** An obstacle at rest, without prediction, whose polygon is the box
    [x0, x1] x [-1, 1]. *)
Definition sample_obstacle (id : string) (static : bool) (x0 x1 : float)
    (was_blocking : bool) : Obstacle :=
  mkObstacle id false static
             [(x0, (-1)%float); (x1, (-1)%float); (x1, 1%float); (x0, 1%float)]
             [] 0 was_blocking.

Definition obstacle_parked : Obstacle := sample_obstacle "parked" true 1 3 true.
Definition obstacle_far : Obstacle := sample_obstacle "far" false 100 104 true.
Definition obstacle_near : Obstacle := sample_obstacle "near" false 1 3 false.
Definition obstacle_late : Obstacle := sample_obstacle "late" false 200 204 true.

Definition sample_scene : ReferenceLineInfo :=
  mkReferenceLineInfo true "B" (mkSLBoundary 0 4)
    (mkVehicleState 0 0 GEAR_DRIVE)
    (fun x y => mkSLPoint x y)
    (mkPathDecision
       [obstacle_parked; obstacle_far; obstacle_near; obstacle_late] []).

Definition sample_angle (a : float) : float := a.

Definition sample_flags (reckless : bool) : PlanningGflags :=
  mkPlanningGflags reckless 2 3.

Definition sample_context (code : option Status) (id : string) (t : float)
  : PlanningContext :=
  mkPlanningContext (mkChangeLaneStatus code id t) [].

(** ** Comparisons of binary64 numbers

    The IEEE comparison orders the numbers that are not NaN by sign class,
    then exponent, then mantissa: [SFkey] makes that a lexicographic order
    on triples of integers. *)

Definition SFkey (f : spec_float) : Z * Z * Z :=
  match f with
  | S754_nan => (0, 0, 0)
  | S754_zero _ => (0, 0, 0)
  | S754_infinity true => (-2, 0, 0)
  | S754_infinity false => (2, 0, 0)
  | S754_finite true m e => (-1, - e, Zneg m)
  | S754_finite false m e => (1, e, Zpos m)
  end%Z.

Definition lex_lt (p q : Z * Z * Z) : Prop :=
  let '(a, b, c) := p in
  let '(a', b', c') := q in
  (a < a' \/ (a = a' /\ (b < b' \/ (b = b' /\ c < c'))))%Z.

Definition lex_le (p q : Z * Z * Z) : Prop :=
  let '(a, b, c) := p in
  let '(a', b', c') := q in
  (a < a' \/ (a = a' /\ (b < b' \/ (b = b' /\ c <= c'))))%Z.

Definition float_key (x : float) : Z * Z * Z := SFkey (Prim2SF x).

Definition is_number (x : float) : Prop := Prim2SF x <> S754_nan.

(** Rounding to nearest, ties to even, of [M / 2 ^ K]. *)
Definition rne (M K : Z) : Z :=
  (match 2 * (M mod 2 ^ K) ?= 2 ^ K with
   | Lt => M / 2 ^ K
   | Gt => M / 2 ^ K + 1
   | Eq => if Z.even (M / 2 ^ K) then M / 2 ^ K else M / 2 ^ K + 1
   end)%Z.

(** The mantissa and exponent [binary_round] gives a positive [M * 2 ^ e]:
    shifted left when no bit is lost, rounded to nearest even otherwise, with
    the carry into the next binade. *)
Definition round_pos (prec emax : Z) (M e : Z) : Z * Z :=
  (let d := Zdigits2 M in
   if d <=? prec then
     (M * 2 ^ (e - SpecFloat.fexp prec emax (d + e)),
      SpecFloat.fexp prec emax (d + e))
   else
     let n := rne M (d - prec) in
     if n =? 2 ^ prec then (2 ^ (prec - 1), d + e - prec + 1)
     else (n, d + e - prec))%Z.

(** The number made of a sign, a mantissa and an exponent, overflow
    included. *)
Definition pack (prec emax : Z) (sx : bool) (ne : Z * Z) : spec_float :=
  match fst ne with
  | Z0 => S754_zero sx
  | Zpos m =>
      if (snd ne <=? emax - prec)%Z then S754_finite sx m (snd ne)
      else S754_infinity sx
  | Zneg _ => S754_nan
  end.

(** ** Further vocabulary *)

From Stdlib Require Import Permutation.

(** An obstacle with its blocking flag put aside: what a scan may not
    change. *)
Definition without_flag (o : Obstacle) : Obstacle :=
  SetLaneChangeBlocking false o.

(** Some evaluated obstacle of [l] blocks. *)
Definition has_blocker (NormalizeAngle : float -> float)
    (info : ReferenceLineInfo) (l : list Obstacle) : Prop :=
  Exists (fun o => skipped info o = false /\
                   blocks NormalizeAngle info o = true) l.

(** A candidate seen with the registry a scan has left. *)
Definition with_path_decision (info : ReferenceLineInfo) (pd : PathDecision)
  : ReferenceLineInfo :=
  mkReferenceLineInfo (IsChangeLanePath info) (Lanes_Id info)
                      (AdcSlBoundary info) (vehicle_state info)
                      (XYToSL info) pd.

(** The value of a finite number, in units of the smallest positive one. *)
Definition SFvalue (prec emax : Z) (f : spec_float) : Z :=
  match f with
  | S754_finite s m e => cond_Zopp s (Zpos m * 2 ^ (e - SpecFloat.emin prec emax))
  | _ => 0
  end%Z.

(** The branches of the state machine that discard the change: more than
    one candidate and either a maneuver on record for another path id than
    the current one, or a failure or a success on record whose freeze time
    has not elapsed. *)
Definition on_discard_branch (flags : PlanningGflags) (now : float)
    (l : list ReferenceLineInfo) (ctx : PlanningContext) : Prop :=
  1 < List.length l /\
  ((status (change_lane ctx) = Some IN_CHANGE_LANE /\
    path_id (change_lane ctx) <> GetCurrentPathId l) \/
   (status (change_lane ctx) = Some CHANGE_LANE_FAILED /\
    (now - timestamp (change_lane ctx)
     <? FLAGS_change_lane_fail_freeze_time flags)%float = true) \/
   (status (change_lane ctx) = Some CHANGE_LANE_SUCCESS /\
    (now - timestamp (change_lane ctx)
     <? FLAGS_change_lane_success_freeze_time flags)%float = true)).




(** A moving obstacle beside the vehicle, two lanes away: the box
    [1, 3] x [5, 7], and a change-lane candidate with this obstacle only. *)
Definition obstacle_side : Obstacle :=
  mkObstacle "side" false false
             [(1%float, 5%float); (3%float, 5%float);
              (3%float, 7%float); (1%float, 7%float)]
             [] 0 false.

Definition sample_scene_side : ReferenceLineInfo :=
  mkReferenceLineInfo true "B" (mkSLBoundary 0 4)
    (mkVehicleState 0 0 GEAR_DRIVE)
    (fun x y => mkSLPoint x y)
    (mkPathDecision [obstacle_side] []).

(** * Properties *)

(** ** Candidate lists *)

Lemma splice_first_change_lane_none :
  forall rest visited,
    Forall (fun c => IsChangeLanePath c = false) rest ->
    splice_first_change_lane visited rest = rev visited ++ rest.
Proof.
  induction rest as [|c rest IH]; intros visited Hall; simpl.
  - now rewrite app_nil_r.
  - inversion Hall as [|? ? Hc Hrest]; subst.
    rewrite Hc, IH by assumption. simpl.
    now rewrite <- app_assoc.
Qed.

Lemma splice_first_change_lane_front :
  forall pre visited c post,
    Forall (fun c' => IsChangeLanePath c' = false) pre ->
    IsChangeLanePath c = true ->
    splice_first_change_lane visited (pre ++ c :: post)
    = c :: rev visited ++ pre ++ post.
Proof.
  induction pre as [|p pre IH]; intros visited c post Hall Hc; simpl.
  - now rewrite Hc.
  - inversion Hall as [|? ? Hp Hpre]; subst.
    rewrite Hp, IH by assumption. simpl.
    now rewrite <- app_assoc.
Qed.

(** Every sequence either has no change-lane candidate or splits at its
    first one. *)
Lemma first_change_lane_split :
  forall l,
    Forall (fun c => IsChangeLanePath c = false) l \/
    exists pre c post,
      l = pre ++ c :: post /\
      Forall (fun c' => IsChangeLanePath c' = false) pre /\
      IsChangeLanePath c = true.
Proof.
  induction l as [|a l IH].
  - left. constructor.
  - destruct (IsChangeLanePath a) eqn:Ha.
    + right. exists [], a, l. repeat split; [constructor | assumption].
    + destruct IH as [Hall | (pre & c & post & -> & Hpre & Hc)].
      * left. now constructor.
      * right. exists (a :: pre), c, post.
        repeat split; [now constructor | assumption].
Qed.

Lemma PrioritizeChangeLane_front :
  forall pre c post,
    Forall (fun c' => IsChangeLanePath c' = false) pre ->
    IsChangeLanePath c = true ->
    PrioritizeChangeLane (pre ++ c :: post) = c :: pre ++ post.
Proof.
  intros pre c post Hpre Hc. unfold PrioritizeChangeLane.
  destruct (pre ++ c :: post) eqn:E.
  - now destruct pre.
  - rewrite <- E. now rewrite splice_first_change_lane_front.
Qed.

Lemma PrioritizeChangeLane_none :
  forall l,
    Forall (fun c => IsChangeLanePath c = false) l ->
    PrioritizeChangeLane l = l.
Proof.
  intros [|a l] Hall; [reflexivity|].
  unfold PrioritizeChangeLane. now rewrite splice_first_change_lane_none.
Qed.

(** [PrioritizeChangeLane] does what the design calls "prioritize". *)
Lemma PrioritizeChangeLane_Prioritized :
  forall l, Prioritized l (PrioritizeChangeLane l).
Proof.
  intros l.
  destruct (first_change_lane_split l) as [Hall | (pre & c & post & -> & Hpre & Hc)].
  - rewrite PrioritizeChangeLane_none by assumption. now constructor.
  - rewrite PrioritizeChangeLane_front by assumption. now constructor.
Qed.

(** [RemoveChangeLane] does what the design calls "discard". *)
Lemma RemoveChangeLane_Discarded :
  forall l, RemoveChangeLane l = Discarded l.
Proof.
  induction l as [|c l IH]; simpl; [reflexivity|].
  destruct (IsChangeLanePath c); simpl; now rewrite IH.
Qed.

Lemma change_lane_count_app :
  forall l1 l2,
    change_lane_count (l1 ++ l2) = change_lane_count l1 + change_lane_count l2.
Proof.
  intros. unfold change_lane_count. now rewrite filter_app, length_app.
Qed.

Lemma Prioritized_change_lane_count :
  forall l l', Prioritized l l' -> change_lane_count l' = change_lane_count l.
Proof.
  intros l l' H. destruct H as [l _ | pre c post _ Hc]; [reflexivity|].
  change (c :: pre ++ post) with ([c] ++ pre ++ post).
  change (c :: post) with ([c] ++ post).
  rewrite !change_lane_count_app. lia.
Qed.

Lemma Discarded_change_lane_count :
  forall l, change_lane_count (Discarded l) = 0.
Proof.
  induction l as [|c l IH]; [reflexivity|].
  unfold Discarded in *. simpl.
  destruct (IsChangeLanePath c) eqn:Hc; simpl; [assumption|].
  unfold change_lane_count in *. simpl. now rewrite Hc.
Qed.

Lemma GetCurrentPathId_current :
  forall l cur,
    current_candidate l = Some cur -> GetCurrentPathId l = Lanes_Id cur.
Proof.
  induction l as [|c l IH]; intros cur H; simpl in *; [discriminate|].
  destruct (negb (IsChangeLanePath c)).
  - now inversion H.
  - now apply IH.
Qed.

Lemma GetCurrentPathId_no_current :
  forall l,
    Forall (fun c => IsChangeLanePath c = true) l -> GetCurrentPathId l = "".
Proof.
  induction 1 as [|c l Hc _ IH]; simpl; [reflexivity|].
  now rewrite Hc.
Qed.

Lemma string_empty_false :
  forall s, s <> "" -> string_empty s = false.
Proof. intros [|a s] H; [contradiction | reflexivity]. Qed.

(** ** Comparisons of binary64 numbers *)

Lemma SFcompare_None :
  forall x y, SFcompare x y = None <-> x = S754_nan \/ y = S754_nan.
Proof.
  intros x y; split.
  - destruct x as [sx|sx| |sx mx ex], y as [sy|sy| |sy my ey]; simpl;
      intros H; try discriminate; auto.
  - intros [-> | ->]; [reflexivity | now destruct x].
Qed.

(** Among numbers, [SFcompare] is the lexicographic order of the keys. *)
Lemma SFcompare_Lt :
  forall x y, SFcompare x y = Some Lt <->
              x <> S754_nan /\ y <> S754_nan /\ lex_lt (SFkey x) (SFkey y).
Proof.
  intros x y.
  destruct x as [sx|sx| |sx mx ex], y as [sy|sy| |sy my ey];
    try destruct sx; try destruct sy; simpl;
    try (split; [ intros H; try discriminate; try (injection H as H);
                  repeat split; try discriminate; lia
                | intros (H1 & H2 & H3); try congruence; try lia ]).
  all: rewrite Pos.compare_cont_spec; simpl.
  all: destruct (Z.compare_spec ex ey) as [E|E|E];
       destruct (Pos.compare_spec mx my) as [M|M|M]; simpl;
       (split; [ intros H; try discriminate;
                 repeat split; try discriminate; lia
               | intros (H1 & H2 & H3); try reflexivity; lia ]).
Qed.

Lemma SFcompare_Eq :
  forall x y, SFcompare x y = Some Eq <->
              x <> S754_nan /\ y <> S754_nan /\ SFkey x = SFkey y.
Proof.
  intros x y.
  destruct x as [sx|sx| |sx mx ex], y as [sy|sy| |sy my ey];
    try destruct sx; try destruct sy; simpl;
    try (split; [ intros H; try discriminate;
                  repeat split; try discriminate; reflexivity
                | intros (H1 & H2 & H3); try congruence ]).
  all: rewrite Pos.compare_cont_spec; simpl.
  all: destruct (Z.compare_spec ex ey) as [E|E|E];
       destruct (Pos.compare_spec mx my) as [M|M|M]; simpl;
       (split; [ intros H; try discriminate;
                 repeat split; try discriminate; subst; reflexivity
               | intros (H1 & H2 & H3); try reflexivity;
                 injection H3; intros; lia ]).
Qed.

(** [<=] and [<] of the specification, then of the primitive floats, read
    on the keys. *)
Lemma SFleb_key :
  forall x y, SFleb x y = true <->
              x <> S754_nan /\ y <> S754_nan /\ lex_le (SFkey x) (SFkey y).
Proof.
  intros x y. unfold SFleb.
  assert (Hle : lex_le (SFkey x) (SFkey y) <->
                lex_lt (SFkey x) (SFkey y) \/ SFkey x = SFkey y).
  { destruct (SFkey x) as [[a b] c], (SFkey y) as [[a' b'] c'].
    simpl. split.
    - intros H. destruct (Z.eq_dec c c') as [->|]; [|left; lia].
      destruct (Z.eq_dec b b') as [->|]; [|left; lia].
      destruct (Z.eq_dec a a') as [->|]; [now right | left; lia].
    - intros [H | H]; [lia | injection H; intros; lia]. }
  rewrite Hle.
  pose proof (SFcompare_Lt x y) as HLt.
  pose proof (SFcompare_Eq x y) as HEq.
  split; intros H.
  - destruct (SFcompare x y) as [[ | | ]|]; try discriminate.
    + destruct HEq as [HEq _]. specialize (HEq eq_refl). tauto.
    + destruct HLt as [HLt _]. specialize (HLt eq_refl). tauto.
  - destruct H as (H1 & H2 & [H3 | H3]).
    + rewrite (proj2 HLt); auto.
    + rewrite (proj2 HEq); auto.
Qed.

Lemma ltb_key :
  forall x y, (x <? y)%float = true <->
              is_number x /\ is_number y /\ lex_lt (float_key x) (float_key y).
Proof.
  intros x y. rewrite ltb_spec. unfold SFltb, is_number, float_key.
  rewrite <- SFcompare_Lt.
  destruct (SFcompare (Prim2SF x) (Prim2SF y)) as [[ | | ]|];
    split; intros H; congruence.
Qed.

Lemma leb_key :
  forall x y, (x <=? y)%float = true <->
              is_number x /\ is_number y /\ lex_le (float_key x) (float_key y).
Proof. intros x y. rewrite leb_spec. apply SFleb_key. Qed.

(** "At least" excludes "strictly below". *)
Lemma leb_not_ltb :
  forall x y, (x <=? y)%float = true -> (y <? x)%float = false.
Proof.
  intros x y Hle. apply leb_key in Hle. destruct Hle as (_ & _ & Hle).
  destruct (y <? x)%float eqn:Hlt; [|reflexivity].
  apply ltb_key in Hlt. destruct Hlt as (_ & _ & Hlt).
  destruct (float_key x) as [[a b] c], (float_key y) as [[a' b'] c'].
  simpl in *. lia.
Qed.

(** [<] and [<=] chain. *)
Lemma ltb_leb_trans :
  forall x y z,
    (x <? y)%float = true -> (y <=? z)%float = true -> (x <? z)%float = true.
Proof.
  intros x y z Hxy Hyz.
  apply ltb_key in Hxy. apply leb_key in Hyz. apply ltb_key.
  destruct Hxy as (Hx & _ & Hxy), Hyz as (_ & Hz & Hyz).
  repeat split; try assumption.
  destruct (float_key x) as [[a b] c], (float_key y) as [[a' b'] c'],
           (float_key z) as [[a'' b''] c''].
  simpl in *. lia.
Qed.

(** Two numbers are comparable: when neither is NaN and the first is not
    below the second, the second is at most the first. *)
Lemma not_ltb_leb :
  forall x y,
    is_number x -> is_number y ->
    (x <? y)%float = false -> (y <=? x)%float = true.
Proof.
  intros x y Hx Hy Hlt. apply leb_key. repeat split; try assumption.
  assert (H : ~ lex_lt (float_key x) (float_key y)).
  { intros H. rewrite (proj2 (ltb_key x y)) in Hlt; [discriminate | auto]. }
  destruct (float_key x) as [[a b] c], (float_key y) as [[a' b'] c'].
  simpl in *. lia.
Qed.

(** ** Rounding of sums and differences

    [binary_round] in closed form, and from it: rounding keeps the order. *)

Section Rounding.

Local Open Scope Z_scope.

Variables prec emax : Z.
Hypothesis Hprec : 0 < prec.

(** The number of binary digits: [2 ^ (d - 1) <= x < 2 ^ d]. *)
Lemma digits2_pos_bounds :
  forall p, 2 ^ (Zpos (digits2_pos p) - 1) <= Zpos p < 2 ^ Zpos (digits2_pos p).
Proof.
  induction p as [p IH | p IH | ]; simpl digits2_pos.
  - rewrite Pos2Z.inj_succ.
    replace (Z.succ (Zpos (digits2_pos p)) - 1) with (Z.succ (Zpos (digits2_pos p) - 1)) by lia.
    rewrite !Z.pow_succ_r by lia. lia.
  - rewrite Pos2Z.inj_succ.
    replace (Z.succ (Zpos (digits2_pos p)) - 1) with (Z.succ (Zpos (digits2_pos p) - 1)) by lia.
    rewrite !Z.pow_succ_r by lia. lia.
  - simpl. lia.
Qed.

Lemma Zdigits2_bounds :
  forall x, 0 < x -> 2 ^ (Zdigits2 x - 1) <= x < 2 ^ Zdigits2 x.
Proof.
  intros [|p|p] H; try lia. apply digits2_pos_bounds.
Qed.

Lemma Zdigits2_pos : forall x, 0 < x -> 0 < Zdigits2 x.
Proof. intros [|p|p] H; simpl; lia. Qed.

Lemma Zdigits2_unique :
  forall x d, 0 < d -> 2 ^ (d - 1) <= x < 2 ^ d -> Zdigits2 x = d.
Proof.
  intros x d Hd [Hlo Hhi].
  assert (Hx : 0 < x) by (pose proof (Z.pow_pos_nonneg 2 (d - 1)); lia).
  pose proof (Zdigits2_bounds x Hx) as [Hlo' Hhi'].
  pose proof (Zdigits2_pos x Hx) as Hd'.
  destruct (Z.lt_trichotomy (Zdigits2 x) d) as [Hlt | [Heq | Hgt]]; [|assumption|].
  - assert (2 ^ Zdigits2 x <= 2 ^ (d - 1)) by (apply Z.pow_le_mono_r; lia). lia.
  - assert (2 ^ d <= 2 ^ (Zdigits2 x - 1)) by (apply Z.pow_le_mono_r; lia). lia.
Qed.

Lemma Zdigits2_mono :
  forall x y, 0 < x -> x <= y -> Zdigits2 x <= Zdigits2 y.
Proof.
  intros x y Hx Hxy.
  pose proof (Zdigits2_bounds x Hx) as [Hlo _].
  pose proof (Zdigits2_bounds y ltac:(lia)) as [_ Hhi].
  destruct (Z_lt_le_dec (Zdigits2 y) (Zdigits2 x)) as [Hlt|]; [|assumption].
  assert (2 ^ Zdigits2 y <= 2 ^ (Zdigits2 x - 1)) by (apply Z.pow_le_mono_r; lia). lia.
Qed.

Lemma Zdigits2_mul_pow2 :
  forall x k, 0 < x -> 0 <= k -> Zdigits2 (x * 2 ^ k) = Zdigits2 x + k.
Proof.
  intros x k Hx Hk.
  pose proof (Zdigits2_bounds x Hx) as [Hlo Hhi].
  pose proof (Zdigits2_pos x Hx) as Hd.
  apply Zdigits2_unique; [lia|].
  replace (Zdigits2 x + k - 1) with ((Zdigits2 x - 1) + k) by lia.
  rewrite !Z.pow_add_r by lia.
  pose proof (Z.pow_pos_nonneg 2 k ltac:(lia) Hk). nia.
Qed.

Lemma Zdigits2_div_pow2 :
  forall x k, 0 < x -> 0 <= k -> k < Zdigits2 x ->
              Zdigits2 (x / 2 ^ k) = Zdigits2 x - k.
Proof.
  intros x k Hx Hk Hlt.
  pose proof (Zdigits2_bounds x Hx) as [Hlo Hhi].
  pose proof (Z.pow_pos_nonneg 2 k ltac:(lia) Hk) as Hpk.
  apply Zdigits2_unique; [lia|].
  split.
  - apply Z.div_le_lower_bound; [lia|].
    rewrite <- Z.pow_add_r by lia.
    replace (k + (Zdigits2 x - k - 1)) with (Zdigits2 x - 1) by lia. assumption.
  - apply Z.div_lt_upper_bound; [lia|].
    rewrite <- Z.pow_add_r by lia.
    replace (k + (Zdigits2 x - k)) with (Zdigits2 x) by lia. assumption.
Qed.


(** Shifting right by [k + 1] bits, one bit at a time: what is left of the
    mantissa, the last bit shifted out, and whether any bit before it was
    set. *)
Lemma iter_pos_nat :
  forall (A : Type) (f : A -> A) p x,
    iter_pos f p x = Nat.iter (Pos.to_nat p) f x.
Proof.
  intros A f. induction p as [p IH | p IH | ]; intros x; simpl iter_pos.
  - rewrite !IH, Pos2Nat.inj_xI.
    replace (S (2 * Pos.to_nat p))%nat with (Pos.to_nat p + S (Pos.to_nat p))%nat by lia.
    rewrite Nat.iter_add. f_equal. now rewrite Nat.iter_succ_r.
  - rewrite !IH, Pos2Nat.inj_xO.
    replace (2 * Pos.to_nat p)%nat with (Pos.to_nat p + Pos.to_nat p)%nat by lia.
    now rewrite Nat.iter_add.
  - reflexivity.
Qed.

Lemma shr_1_nonneg :
  forall m r s, 0 <= m ->
    shr_1 (Build_shr_record m r s) = Build_shr_record (m / 2) (Z.odd m) (r || s).
Proof.
  intros m r s Hm. rewrite <- Z.div2_div.
  destruct m as [|[p|p|]|p]; try reflexivity. lia.
Qed.

Lemma shr_steps :
  forall (k : nat) M, 0 <= M ->
    Nat.iter (S k) shr_1 (Build_shr_record M false false)
    = Build_shr_record (M / 2 ^ (Z.of_nat k + 1))
                       (Z.testbit M (Z.of_nat k))
                       (negb (M mod 2 ^ Z.of_nat k =? 0)).
Proof.
  intros k M HM. induction k as [|k IH].
  - unfold Nat.iter; cbn [nat_rect]. rewrite shr_1_nonneg by assumption.
    simpl Z.of_nat. rewrite Z.bit0_odd. simpl (2 ^ 0). rewrite Z.mod_1_r.
    reflexivity.
  - change (Nat.iter (S (S k)) shr_1 ?x) with (shr_1 (Nat.iter (S k) shr_1 x)).
    rewrite IH.
    assert (Hp : 0 < 2 ^ Z.of_nat k) by (apply Z.pow_pos_nonneg; lia).
    rewrite shr_1_nonneg by (apply Z.div_pos; [lia | apply Z.pow_pos_nonneg; lia]).
    rewrite Nat2Z.inj_succ.
    f_equal.
    + rewrite Z.div_div by (try apply Z.pow_pos_nonneg; lia).
      f_equal. replace (Z.succ (Z.of_nat k) + 1) with (Z.succ (Z.of_nat k + 1)) by lia.
      rewrite (Z.pow_succ_r 2 (Z.of_nat k + 1)) by lia. lia.
    + rewrite Z.testbit_odd, Z.shiftr_div_pow2 by lia.
      repeat f_equal; lia.
    + rewrite (Z.pow_succ_r 2 (Z.of_nat k)) by lia.
      rewrite (Z.mul_comm 2), Z.rem_mul_r by lia.
      destruct (Z.testbit M (Z.of_nat k)) eqn:Hb.
      * apply Z.testbit_true in Hb; [|lia]. rewrite Hb.
        pose proof (Z.mod_pos_bound M (2 ^ Z.of_nat k) Hp).
        simpl orb. symmetry. apply negb_true_iff. apply Z.eqb_neq. lia.
      * apply Z.testbit_false in Hb; [|lia]. rewrite Hb.
        simpl orb. f_equal. f_equal. lia.
Qed.

(** The round bit and the sticky bit decide as the remainder does. *)
Lemma shr_rne :
  forall p M, 0 <= M ->
    let mrs := iter_pos shr_1 p (Build_shr_record M false false) in
    round_nearest_even (shr_m mrs) (loc_of_shr_record mrs) = rne M (Zpos p).
Proof.
  intros p M HM mrs. subst mrs. rewrite iter_pos_nat.
  destruct (Pos2Nat.is_succ p) as [k Hk]. rewrite Hk, shr_steps by assumption.
  assert (HK : Zpos p = Z.of_nat k + 1) by lia.
  rewrite HK. unfold rne.
  assert (Hp : 0 < 2 ^ Z.of_nat k) by (apply Z.pow_pos_nonneg; lia).
  replace (2 ^ (Z.of_nat k + 1)) with (2 ^ Z.of_nat k * 2)
    by (rewrite Z.pow_add_r by lia; reflexivity).
  rewrite Z.rem_mul_r by lia.
  pose proof (Z.mod_pos_bound M (2 ^ Z.of_nat k) Hp) as Hlow.
  destruct (Z.testbit M (Z.of_nat k)) eqn:Hb;
    [apply Z.testbit_true in Hb | apply Z.testbit_false in Hb]; try lia;
    rewrite Hb;
    destruct (M mod 2 ^ Z.of_nat k =? 0) eqn:Hs;
    [apply Z.eqb_eq in Hs | apply Z.eqb_neq in Hs
    |apply Z.eqb_eq in Hs | apply Z.eqb_neq in Hs];
    cbn [negb loc_of_shr_record round_nearest_even shr_m];
    destruct (Z.compare_spec (2 * (M mod 2 ^ Z.of_nat k + 2 ^ Z.of_nat k * 1))
                             (2 ^ Z.of_nat k * 2));
    destruct (Z.compare_spec (2 * (M mod 2 ^ Z.of_nat k + 2 ^ Z.of_nat k * 0))
                             (2 ^ Z.of_nat k * 2));
    try reflexivity; lia.
Qed.

Lemma rne_bounds :
  forall M K, 0 <= K -> M / 2 ^ K <= rne M K <= M / 2 ^ K + 1.
Proof.
  intros M K HK. unfold rne.
  destruct (2 * (M mod 2 ^ K) ?= 2 ^ K); [destruct (Z.even _)| |]; lia.
Qed.

Lemma rne_mono :
  forall M1 M2 K, 0 <= K -> M1 <= M2 -> rne M1 K <= rne M2 K.
Proof.
  intros M1 M2 K HK HM.
  assert (Hp : 0 < 2 ^ K) by (apply Z.pow_pos_nonneg; lia).
  pose proof (Z.div_le_mono M1 M2 (2 ^ K) Hp HM) as Hq.
  pose proof (rne_bounds M1 K HK) as [_ H1].
  pose proof (rne_bounds M2 K HK) as [H2 _].
  destruct (Z.eq_dec (M1 / 2 ^ K) (M2 / 2 ^ K)) as [E | NE]; [|lia].
  pose proof (Z.div_mod M1 (2 ^ K) ltac:(lia)) as D1.
  pose proof (Z.div_mod M2 (2 ^ K) ltac:(lia)) as D2.
  assert (Hr : M1 mod 2 ^ K <= M2 mod 2 ^ K) by (rewrite E in D1; lia).
  unfold rne. rewrite E.
  destruct (Z.compare_spec (2 * (M1 mod 2 ^ K)) (2 ^ K));
    destruct (Z.compare_spec (2 * (M2 mod 2 ^ K)) (2 ^ K));
    destruct (Z.even (M2 / 2 ^ K)); lia.
Qed.


(** [binary_round] in closed form. *)
Lemma Pos_iter_xO :
  forall p m, Zpos (Pos.iter xO m p) = Zpos m * 2 ^ Zpos p.
Proof.
  induction p as [|p IH] using Pos.peano_ind; intros m.
  - simpl. lia.
  - rewrite Pos.iter_succ, Pos2Z.inj_xO, IH, Pos2Z.inj_succ, Z.pow_succ_r by lia.
    lia.
Qed.

Lemma binary_round_aux_exact :
  forall sx M E,
    0 < M -> SpecFloat.emin prec emax <= E -> Zdigits2 M <= prec ->
    SpecFloat.fexp prec emax (Zdigits2 M + E) = E ->
    binary_round_aux prec emax sx M E loc_Exact = pack prec emax sx (M, E).
Proof.
  intros sx M E HM HE Hd Hfexp.
  unfold binary_round_aux, shr_fexp.
  rewrite Hfexp, Z.sub_diag. cbn [shr shr_record_of_loc].
  cbn [loc_of_shr_record round_nearest_even shr_m].
  rewrite Hfexp, Z.sub_diag. cbn [shr shr_m]. reflexivity.
Qed.

Lemma binary_round_spec :
  forall sx m e,
    SpecFloat.emin prec emax <= e ->
    binary_round prec emax sx m e = pack prec emax sx (round_pos prec emax (Zpos m) e).
Proof.
  intros sx m e He. unfold binary_round, round_pos.
  change (Zpos (digits2_pos m)) with (Zdigits2 (Zpos m)).
  set (d := Zdigits2 (Zpos m)).
  assert (Hd : 0 < d) by (apply Zdigits2_pos; lia).
  destruct (Z.leb_spec d prec) as [Hle | Hgt].
  - (* no bit is lost *)
    assert (HE : SpecFloat.emin prec emax <= SpecFloat.fexp prec emax (d + e) <= e)
      by (unfold SpecFloat.fexp, SpecFloat.emin in *; lia).
    unfold shl_align.
    destruct (SpecFloat.fexp prec emax (d + e) - e) as [|p|p] eqn:Hsh; try lia.
    + assert (Heq : SpecFloat.fexp prec emax (d + e) = e) by lia.
      rewrite Heq, Z.sub_diag, Z.mul_1_r.
      apply binary_round_aux_exact; try assumption; lia.
    + rewrite Pos_iter_xO.
      assert (Hp : e - SpecFloat.fexp prec emax (d + e) = Zpos p) by lia.
      rewrite Hp.
      assert (Hdig : Zdigits2 (Zpos m * 2 ^ Zpos p) = d + Zpos p)
        by (apply Zdigits2_mul_pow2; lia).
      apply binary_round_aux_exact.
      * pose proof (Z.pow_pos_nonneg 2 (Zpos p)). nia.
      * lia.
      * rewrite Hdig. unfold SpecFloat.fexp, SpecFloat.emin in *. lia.
      * rewrite Hdig. replace (d + Zpos p + SpecFloat.fexp prec emax (d + e)) with (d + e) by lia.
        reflexivity.
  - (* bits are shifted out and rounded *)
    assert (HE : SpecFloat.fexp prec emax (d + e) = d + e - prec) by (unfold SpecFloat.fexp, SpecFloat.emin in *; lia).
    unfold shl_align. rewrite HE.
    destruct (d + e - prec - e) as [|p|p] eqn:Hsh; try lia.
    assert (Hp : d - prec = Zpos p) by lia.
    unfold binary_round_aux, shr_fexp. fold d. rewrite HE, Hsh.
    cbn [shr shr_record_of_loc].
    rewrite (shr_rne p (Zpos m)) by lia. rewrite Hp.
    set (n := rne (Zpos m) (Zpos p)).
    assert (Hq : Zdigits2 (Zpos m / 2 ^ Zpos p) = prec).
    { rewrite Zdigits2_div_pow2; fold d; lia. }
    assert (Hqpos : 0 < Zpos m / 2 ^ Zpos p).
    { apply Z.div_str_pos. split; [apply Z.pow_pos_nonneg; lia|].
      pose proof (Zdigits2_bounds (Zpos m) ltac:(lia)) as [Hlo _]. fold d in Hlo.
      assert (2 ^ Zpos p <= 2 ^ (d - 1)) by (apply Z.pow_le_mono_r; lia). lia. }
    pose proof (Zdigits2_bounds _ Hqpos) as Hqb. rewrite Hq in Hqb.
    pose proof (rne_bounds (Zpos m) (Zpos p) ltac:(lia)) as Hn. fold n in Hn.
    replace (e + Zpos p) with (d + e - prec) by lia.
    destruct (Z.eqb_spec n (2 ^ prec)) as [Hcarry | Hno].
    + rewrite Hcarry.
      assert (Hdn : Zdigits2 (2 ^ prec) = prec + 1).
      { apply Zdigits2_unique; [lia|].
        replace (prec + 1 - 1) with prec by lia.
        split; [lia | apply Z.pow_lt_mono_r; lia]. }
      rewrite Hdn.
      replace (SpecFloat.fexp prec emax (prec + 1 + (d + e - prec)) - (d + e - prec)) with 1
        by (unfold SpecFloat.fexp, SpecFloat.emin in *; lia).
      cbn [shr iter_pos].
      rewrite shr_1_nonneg by (apply Z.pow_nonneg; lia).
      cbn [shr_m].
      replace (2 ^ prec / 2) with (2 ^ (prec - 1)).
      2:{ replace prec with (Z.succ (prec - 1)) at 2 by lia.
          rewrite Z.pow_succ_r by lia.
          rewrite Z.mul_comm, Z.div_mul by lia. reflexivity. }
      reflexivity.
    + assert (Hdn : Zdigits2 n = prec) by (apply Zdigits2_unique; lia).
      rewrite Hdn.
      replace (SpecFloat.fexp prec emax (prec + (d + e - prec)) - (d + e - prec)) with 0
        by (unfold SpecFloat.fexp, SpecFloat.emin in *; lia).
      reflexivity.
Qed.


Lemma rne_range :
  forall M, 0 < M -> prec < Zdigits2 M ->
    2 ^ (prec - 1) <= rne M (Zdigits2 M - prec) <= 2 ^ prec.
Proof.
  intros M HM Hd.
  assert (Hq : Zdigits2 (M / 2 ^ (Zdigits2 M - prec)) = prec)
    by (rewrite Zdigits2_div_pow2; lia).
  assert (Hqpos : 0 < M / 2 ^ (Zdigits2 M - prec)).
  { apply Z.div_str_pos. split; [apply Z.pow_pos_nonneg; lia|].
    pose proof (Zdigits2_bounds M HM) as [Hlo _].
    assert (2 ^ (Zdigits2 M - prec) <= 2 ^ (Zdigits2 M - 1))
      by (apply Z.pow_le_mono_r; lia).
    lia. }
  pose proof (Zdigits2_bounds _ Hqpos) as Hqb. rewrite Hq in Hqb.
  pose proof (rne_bounds M (Zdigits2 M - prec) ltac:(lia)). lia.
Qed.

(** Rounding keeps the order: exponents first, then mantissas. *)
Lemma round_pos_mono :
  forall M1 M2 e,
    0 < M1 -> M1 <= M2 -> SpecFloat.emin prec emax <= e ->
    0 < fst (round_pos prec emax M1 e) /\ 0 < fst (round_pos prec emax M2 e) /\
    (snd (round_pos prec emax M1 e) < snd (round_pos prec emax M2 e) \/
     (snd (round_pos prec emax M1 e) = snd (round_pos prec emax M2 e) /\
      fst (round_pos prec emax M1 e) <= fst (round_pos prec emax M2 e))).
Proof.
  intros M1 M2 e HM1 HM He.
  pose proof (Zdigits2_mono M1 M2 HM1 HM) as Hd.
  pose proof (Zdigits2_pos M1 HM1) as Hd1.
  assert (Hpp : 0 < 2 ^ (prec - 1)) by (apply Z.pow_pos_nonneg; lia).
  unfold round_pos.
  destruct (Z.leb_spec (Zdigits2 M1) prec) as [H1 | H1];
    destruct (Z.leb_spec (Zdigits2 M2) prec) as [H2 | H2]; try lia.
  - (* both exact *)
    cbn [fst snd].
    set (E1 := SpecFloat.fexp prec emax (Zdigits2 M1 + e)).
    set (E2 := SpecFloat.fexp prec emax (Zdigits2 M2 + e)).
    assert (HE : E1 <= E2 /\ E1 <= e /\ E2 <= e)
      by (unfold E1, E2, SpecFloat.fexp, SpecFloat.emin in *; lia).
    pose proof (Z.pow_pos_nonneg 2 (e - E1) ltac:(lia) ltac:(lia)).
    pose proof (Z.pow_pos_nonneg 2 (e - E2) ltac:(lia) ltac:(lia)).
    repeat split; try nia.
    destruct (Z.eq_dec E1 E2) as [Heq | Hne]; [right | left; lia].
    rewrite Heq. split; [reflexivity | nia].
  - (* the first exact, the second rounded *)
    pose proof (rne_range M2 ltac:(lia) H2) as Hn2.
    assert (HE : SpecFloat.fexp prec emax (Zdigits2 M1 + e) <= e)
      by (unfold SpecFloat.fexp, SpecFloat.emin in *; lia).
    pose proof (Z.pow_pos_nonneg 2 (e - SpecFloat.fexp prec emax (Zdigits2 M1 + e))
                  ltac:(lia) ltac:(lia)).
    destruct (Z.eqb_spec (rne M2 (Zdigits2 M2 - prec)) (2 ^ prec));
      cbn [fst snd]; repeat split; try nia; left; lia.
  - (* both rounded *)
    pose proof (rne_range M1 HM1 H1) as Hn1.
    pose proof (rne_range M2 ltac:(lia) H2) as Hn2.
    assert (Hmono : Zdigits2 M1 = Zdigits2 M2 ->
                    rne M1 (Zdigits2 M1 - prec) <= rne M2 (Zdigits2 M2 - prec)).
    { intros E. rewrite <- E. apply rne_mono; lia. }
    destruct (Z.eqb_spec (rne M1 (Zdigits2 M1 - prec)) (2 ^ prec));
      destruct (Z.eqb_spec (rne M2 (Zdigits2 M2 - prec)) (2 ^ prec));
      cbn [fst snd]; repeat split; try lia;
      destruct (Z.eq_dec (Zdigits2 M1) (Zdigits2 M2)) as [E | NE];
      try specialize (Hmono E); lia.
Qed.


(** The key of a rounded number, and the order of two of them. *)
Lemma pack_key :
  forall sx n E, 0 < n ->
    pack prec emax sx (n, E) <> S754_nan /\
    SFkey (pack prec emax sx (n, E)) =
    if E <=? emax - prec then
      if sx then (-1, - E, - n) else (1, E, n)
    else
      if sx then (-2, 0, 0) else (2, 0, 0).
Proof.
  intros sx n E Hn. unfold pack. cbn [fst snd].
  destruct n as [|m|m]; try lia.
  destruct (E <=? emax - prec), sx; split; try discriminate; reflexivity.
Qed.

Lemma pack_mono :
  forall r1 r2,
    0 < fst r1 -> 0 < fst r2 ->
    snd r1 < snd r2 \/ (snd r1 = snd r2 /\ fst r1 <= fst r2) ->
    SFleb (pack prec emax false r1) (pack prec emax false r2) = true /\
    SFleb (pack prec emax true r2) (pack prec emax true r1) = true.
Proof.
  intros [n1 E1] [n2 E2] H1 H2 Hle. cbn [fst snd] in *.
  destruct (pack_key false n1 E1 H1) as [Na1 K1].
  destruct (pack_key false n2 E2 H2) as [Na2 K2].
  destruct (pack_key true n1 E1 H1) as [Nb1 L1].
  destruct (pack_key true n2 E2 H2) as [Nb2 L2].
  split; apply SFleb_key; repeat split; try assumption.
  - rewrite K1, K2.
    destruct (Z.leb_spec E1 (emax - prec)), (Z.leb_spec E2 (emax - prec));
      simpl; lia.
  - rewrite L1, L2.
    destruct (Z.leb_spec E1 (emax - prec)), (Z.leb_spec E2 (emax - prec));
      simpl; lia.
Qed.

(** Rounding a signed mantissa at a fixed exponent keeps the order. *)
Lemma binary_normalize_mono :
  forall M1 M2 e,
    SpecFloat.emin prec emax <= e -> M1 <= M2 ->
    SFleb (binary_normalize prec emax M1 e false)
          (binary_normalize prec emax M2 e false) = true.
Proof.
  intros M1 M2 e He HM. unfold binary_normalize.
  destruct M1 as [|m1|m1], M2 as [|m2|m2]; try lia;
    rewrite ?binary_round_spec by assumption.
  - reflexivity.
  - destruct (round_pos_mono (Zpos m2) (Zpos m2) e) as (Hp & _ & _); try lia.
    destruct (round_pos prec emax (Zpos m2) e) as [n E]. cbn [fst] in Hp.
    destruct (pack_key false n E Hp) as [Hn Hk].
    apply SFleb_key. repeat split; try discriminate; try assumption.
    rewrite Hk. destruct (E <=? emax - prec); simpl; lia.
  - destruct (round_pos_mono (Zpos m1) (Zpos m2) e) as (H1 & H2 & Hle); try lia.
    now apply pack_mono.
  - destruct (round_pos_mono (Zpos m1) (Zpos m1) e) as (Hp & _ & _); try lia.
    destruct (round_pos prec emax (Zpos m1) e) as [n E]. cbn [fst] in Hp.
    destruct (pack_key true n E Hp) as [Hn Hk].
    apply SFleb_key. repeat split; try discriminate; try assumption.
    rewrite Hk. destruct (E <=? emax - prec); simpl; lia.
  - destruct (round_pos_mono (Zpos m1) (Zpos m1) e) as (Hp1 & _ & _); try lia.
    destruct (round_pos_mono (Zpos m2) (Zpos m2) e) as (Hp2 & _ & _); try lia.
    destruct (round_pos prec emax (Zpos m1) e) as [n1 E1], (round_pos prec emax (Zpos m2) e) as [n2 E2].
    cbn [fst] in *.
    destruct (pack_key true n1 E1 Hp1) as [Hn1 Hk1].
    destruct (pack_key false n2 E2 Hp2) as [Hn2 Hk2].
    apply SFleb_key. repeat split; try assumption.
    rewrite Hk1, Hk2.
    destruct (E1 <=? emax - prec), (E2 <=? emax - prec); simpl; lia.
  - destruct (round_pos_mono (Zpos m2) (Zpos m1) e) as (H1 & H2 & Hle); try lia.
    now apply pack_mono.
Qed.

(** A valid finite number has its exponent at or above [emin]. *)
Lemma valid_binary_emin :
  forall s m e,
    SpecFloat.valid_binary prec emax (S754_finite s m e) = true ->
    SpecFloat.emin prec emax <= e.
Proof.
  intros s m e H. unfold SpecFloat.valid_binary, bounded, canonical_mantissa in H.
  apply andb_prop in H. destruct H as [H _]. apply Z.eqb_eq in H.
  unfold SpecFloat.fexp in H. lia.
Qed.

(** Subtracting a non-negative finite number never gives more than adding
    it, rounding included. *)
Lemma SFsub_le_SFadd :
  forall x y,
    SpecFloat.valid_binary prec emax x = true ->
    SpecFloat.valid_binary prec emax y = true ->
    x <> S754_nan ->
    y <> S754_nan ->
    lex_le (0, 0, 0) (SFkey y) ->
    lex_lt (SFkey y) (2, 0, 0) ->
    SFleb (SFsub prec emax x y) (SFadd prec emax x y) = true.
Proof.
  intros x y Vx Vy Hx Hy Hy1 Hy2.
  destruct x as [sx|sx| |sx mx ex]; try destruct sx; try congruence;
    (destruct y as [sy|sy| |sy my ey]; try destruct sy;
     simpl in Hy1, Hy2; try lia; try congruence); try reflexivity.
  all: try (simpl; apply SFleb_key; repeat split; try discriminate;
            simpl; rewrite ?Pos.compare_cont_spec; lia).
  all: unfold SFsub, SFadd; cbv zeta;
    apply binary_normalize_mono;
    [ pose proof (valid_binary_emin _ _ _ Vx);
      pose proof (valid_binary_emin _ _ _ Vy); lia
    | unfold cond_Zopp; lia ].
Qed.

End Rounding.

(** With a finite non-negative buffer, subtracting it from a number gives at
    most what adding it gives: the two thresholds of the filter are ordered,
    rounding and overflow included. *)
Lemma sub_le_add :
  forall s b,
    is_number s ->
    (0 <=? b)%float = true ->
    (b <? infinity)%float = true ->
    (s - b <=? s + b)%float = true.
Proof.
  intros s b Ns Hnn Hfin.
  apply leb_key in Hnn. apply ltb_key in Hfin.
  destruct Hnn as (_ & Nb & Hnn), Hfin as (_ & _ & Hfin).
  rewrite leb_spec, sub_spec, add_spec.
  apply (SFsub_le_SFadd prec emax); try assumption; try apply Prim2SF_valid.
  reflexivity.
Qed.

(** A threshold computed from NaN is NaN: nothing is below it, and it is at
    most nothing. *)
Lemma nan_thresholds :
  forall s b gap,
    Prim2SF s = S754_nan ->
    (gap <? s + b)%float = false /\
    (gap <? s - b)%float = false /\
    (s - b <=? gap)%float = false.
Proof.
  intros s b gap Hs.
  rewrite !ltb_spec, leb_spec, add_spec, sub_spec, Hs.
  unfold SF64add, SF64sub, SFltb, SFleb. simpl SFadd. simpl SFsub.
  destruct (Prim2SF gap) as [[|]|[|]| |[|] m e]; repeat split; reflexivity.
Qed.
(** ** The state machine *)

(** The steps every branch of the offered-change part of [Apply] shares:
    non-empty list, no reckless flag, a status on record, more than one
    candidate, a current path id. *)
Lemma Apply_offered :
  forall flags now l ctx code cur,
    FLAGS_reckless_change_lane flags = false ->
    status (change_lane ctx) = Some code ->
    1 < List.length l ->
    current_candidate l = Some cur ->
    Lanes_Id cur <> "" ->
    Apply flags now l ctx =
    match code with
    | IN_CHANGE_LANE =>
        if String.eqb (path_id (change_lane ctx)) (Lanes_Id cur) then
          (true, PrioritizeChangeLane l, ctx)
        else
          (true, RemoveChangeLane l,
           UpdateStatus now CHANGE_LANE_SUCCESS (Lanes_Id cur) ctx)
    | CHANGE_LANE_FAILED =>
        if (now - timestamp (change_lane ctx)
            <? FLAGS_change_lane_fail_freeze_time flags)%float then
          (true, RemoveChangeLane l, ctx)
        else
          (true, l, UpdateStatus now IN_CHANGE_LANE (Lanes_Id cur) ctx)
    | CHANGE_LANE_SUCCESS =>
        if (now - timestamp (change_lane ctx)
            <? FLAGS_change_lane_success_freeze_time flags)%float then
          (true, RemoveChangeLane l, ctx)
        else
          (true, PrioritizeChangeLane l,
           UpdateStatus now IN_CHANGE_LANE (Lanes_Id cur) ctx)
    end.
Proof.
  intros flags now l ctx code cur Hreck Hst Hlen Hcur Hid.
  assert (Hlt : (1 <? List.length l)%nat = true) by now apply Nat.ltb_lt.
  unfold Apply. destruct l as [|front rest]; [simpl in Hlen; lia|].
  rewrite Hreck. unfold has_status, status_is. rewrite Hst, Hlt.
  rewrite (GetCurrentPathId_current _ _ Hcur).
  rewrite (string_empty_false _ Hid).
  destruct code; reflexivity.
Qed.

(** With a status on record and more than one candidate, a sequence that
    yields no path id makes [Apply] fail and change nothing. *)
Lemma Apply_without_path_id :
  forall flags now l ctx code,
    FLAGS_reckless_change_lane flags = false ->
    status (change_lane ctx) = Some code ->
    1 < List.length l ->
    GetCurrentPathId l = "" ->
    Apply flags now l ctx = (false, l, ctx).
Proof.
  intros flags now l ctx code Hreck Hst Hlen Hid.
  assert (Hlt : (1 <? List.length l)%nat = true) by now apply Nat.ltb_lt.
  unfold Apply. destruct l as [|front rest]; [reflexivity|].
  rewrite Hreck. unfold has_status. rewrite Hst, Hlt, Hid. reflexivity.
Qed.

(** C8. On the empty candidate sequence [Apply] fails, whatever the flags,
    the clock and the persisted status are, and leaves the sequence and the
    planning context (status and journal) as they were. *)
Theorem Apply_empty_input :
  forall flags now ctx, Apply flags now [] ctx = (false, [], ctx).
Proof. reflexivity. Qed.

(** C10. In the state machine (no reckless flag), with no status on record
    yet and a non-empty sequence made of change-lane candidates only,
    [Apply] succeeds, leaves the sequence as it is, and records
    [CHANGE_LANE_SUCCESS] with the empty path id at the clock's reading:
    the bootstrap branch never tests the path id for emptiness. *)
Theorem Apply_bootstrap_without_current_lane :
  forall flags now l ctx,
    FLAGS_reckless_change_lane flags = false ->
    status (change_lane ctx) = None ->
    l <> [] ->
    Forall (fun c => IsChangeLanePath c = true) l ->
    exists ctx',
      Apply flags now l ctx = (true, l, ctx') /\
      change_lane ctx' = mkChangeLaneStatus (Some CHANGE_LANE_SUCCESS) "" now.
Proof.
  intros flags now l ctx Hreck Hst Hne Hall.
  exists (UpdateStatus now CHANGE_LANE_SUCCESS "" ctx). split; [|reflexivity].
  unfold Apply. destruct l as [|front rest]; [contradiction|].
  rewrite Hreck. unfold has_status. rewrite Hst. simpl negb. cbv iota.
  now rewrite (GetCurrentPathId_no_current _ Hall).
Qed.

Lemma Apply_bootstrap_without_current_lane_witness :
  exists ctx',
    Apply (sample_flags false) 7 [lane_B; lane_C] (sample_context None "" 0)
    = (true, [lane_B; lane_C], ctx') /\
    change_lane ctx' = mkChangeLaneStatus (Some CHANGE_LANE_SUCCESS) "" 7.
Proof.
  apply (Apply_bootstrap_without_current_lane
           (sample_flags false) 7 [lane_B; lane_C] (sample_context None "" 0)).
  - reflexivity.
  - reflexivity.
  - discriminate.
  - repeat constructor.
Defined.

(** C7, as the code has it. In the state machine, with
    [CHANGE_LANE_FAILED] on record, more than one candidate, a current
    (non-change) candidate, and [now - timestamp] strictly below the failure
    freeze time: when the current candidate carries a path id, [Apply]
    removes every change-lane candidate, succeeds, and leaves the planning
    context (phase, path id, timestamp, journal) as it was; when its path id
    is empty, [Apply] fails and leaves the sequence and the planning context
    as they were. *)
Theorem Apply_failed_cooldown_active :
  forall flags now l ctx cur,
    FLAGS_reckless_change_lane flags = false ->
    status (change_lane ctx) = Some CHANGE_LANE_FAILED ->
    1 < List.length l ->
    current_candidate l = Some cur ->
    (now - timestamp (change_lane ctx)
     <? FLAGS_change_lane_fail_freeze_time flags)%float = true ->
    (Lanes_Id cur <> "" -> Apply flags now l ctx = (true, Discarded l, ctx)) /\
    (Lanes_Id cur = "" -> Apply flags now l ctx = (false, l, ctx)).
Proof.
  intros flags now l ctx cur Hreck Hst Hlen Hcur Hfreeze. split; intros Hid.
  - rewrite (Apply_offered _ _ _ _ _ _ Hreck Hst Hlen Hcur Hid), Hfreeze.
    now rewrite RemoveChangeLane_Discarded.
  - apply (Apply_without_path_id _ _ _ _ _ Hreck Hst Hlen).
    now rewrite (GetCurrentPathId_current _ _ Hcur).
Qed.

Lemma Apply_failed_cooldown_active_witness :
  Apply (sample_flags false) 1 [lane_A; lane_B]
        (sample_context (Some CHANGE_LANE_FAILED) "A" 0)
  = (true, [lane_A], sample_context (Some CHANGE_LANE_FAILED) "A" 0) /\
  Apply (sample_flags false) 1 [lane_unnamed; lane_B]
        (sample_context (Some CHANGE_LANE_FAILED) "A" 0)
  = (false, [lane_unnamed; lane_B],
     sample_context (Some CHANGE_LANE_FAILED) "A" 0).
Proof.
  split.
  - apply (Apply_failed_cooldown_active
             (sample_flags false) 1 [lane_A; lane_B]
             (sample_context (Some CHANGE_LANE_FAILED) "A" 0) lane_A);
      [reflexivity | reflexivity | simpl; lia | reflexivity | reflexivity
      | discriminate].
  - apply (Apply_failed_cooldown_active
             (sample_flags false) 1 [lane_unnamed; lane_B]
             (sample_context (Some CHANGE_LANE_FAILED) "A" 0) lane_unnamed);
      [reflexivity | reflexivity | simpl; lia | reflexivity | reflexivity
      | reflexivity].
Defined.

(** C7 as stated fails: failed at time 0, freeze time 2, called at 1 with
    [unnamed, B(change)].  The phase is [CHANGE_LANE_FAILED], there are two
    candidates, a current (non-change) candidate exists and the freeze time
    has not elapsed; yet [Apply] fails and removes nothing, because the
    current candidate's path id is empty. *)
Lemma Apply_failed_cooldown_active_unnamed_fails :
  FLAGS_reckless_change_lane (sample_flags false) = false /\
  status (change_lane (sample_context (Some CHANGE_LANE_FAILED) "A" 0))
  = Some CHANGE_LANE_FAILED /\
  List.length [lane_unnamed; lane_B] = 2 /\
  current_candidate [lane_unnamed; lane_B] = Some lane_unnamed /\
  IsChangeLanePath lane_unnamed = false /\
  (1 - 0 <? FLAGS_change_lane_fail_freeze_time (sample_flags false))%float
  = true /\
  Apply (sample_flags false) 1 [lane_unnamed; lane_B]
        (sample_context (Some CHANGE_LANE_FAILED) "A" 0)
  = (false, [lane_unnamed; lane_B],
     sample_context (Some CHANGE_LANE_FAILED) "A" 0) /\
  change_lane_count [lane_unnamed; lane_B] = 1.
Proof. repeat split. Qed.

(** C6, as the code has it. In the state machine, with [IN_CHANGE_LANE]
    on record, more than one candidate and a current (non-change) candidate:
    when that candidate carries a path id and the recorded path id is the
    same, [Apply] moves the first change-lane candidate to the front,
    succeeds and leaves the planning context as it was; when it carries
    another path id, [Apply] removes every change-lane candidate, succeeds,
    and the status on record becomes [CHANGE_LANE_SUCCESS] with the current
    path id and the clock's reading; when the current candidate's path id is
    empty, [Apply] fails and leaves the sequence and the planning context as
    they were. *)
Theorem Apply_in_change_lane :
  forall flags now l ctx cur,
    FLAGS_reckless_change_lane flags = false ->
    status (change_lane ctx) = Some IN_CHANGE_LANE ->
    1 < List.length l ->
    current_candidate l = Some cur ->
    (Lanes_Id cur <> "" ->
     path_id (change_lane ctx) = Lanes_Id cur ->
     exists l', Apply flags now l ctx = (true, l', ctx) /\ Prioritized l l') /\
    (Lanes_Id cur <> "" ->
     path_id (change_lane ctx) <> Lanes_Id cur ->
     exists ctx',
       Apply flags now l ctx = (true, Discarded l, ctx') /\
       change_lane ctx'
       = mkChangeLaneStatus (Some CHANGE_LANE_SUCCESS) (Lanes_Id cur) now) /\
    (Lanes_Id cur = "" -> Apply flags now l ctx = (false, l, ctx)).
Proof.
  intros flags now l ctx cur Hreck Hst Hlen Hcur.
  split; [|split]; intros Hid.
  - intros Hpath.
    rewrite (Apply_offered _ _ _ _ _ _ Hreck Hst Hlen Hcur Hid).
    apply String.eqb_eq in Hpath. rewrite Hpath.
    exists (PrioritizeChangeLane l).
    split; [reflexivity | apply PrioritizeChangeLane_Prioritized].
  - intros Hpath.
    rewrite (Apply_offered _ _ _ _ _ _ Hreck Hst Hlen Hcur Hid).
    apply String.eqb_neq in Hpath. rewrite Hpath.
    exists (UpdateStatus now CHANGE_LANE_SUCCESS (Lanes_Id cur) ctx).
    split; [now rewrite RemoveChangeLane_Discarded | reflexivity].
  - apply (Apply_without_path_id _ _ _ _ _ Hreck Hst Hlen).
    now rewrite (GetCurrentPathId_current _ _ Hcur).
Qed.

Lemma Apply_in_change_lane_witness :
  (exists l',
      Apply (sample_flags false) 1 [lane_A; lane_B]
            (sample_context (Some IN_CHANGE_LANE) "A" 0)
      = (true, l', sample_context (Some IN_CHANGE_LANE) "A" 0) /\
      Prioritized [lane_A; lane_B] l') /\
  (exists ctx',
      Apply (sample_flags false) 1 [lane_A; lane_B]
            (sample_context (Some IN_CHANGE_LANE) "Z" 0)
      = (true, [lane_A], ctx') /\
      change_lane ctx' = mkChangeLaneStatus (Some CHANGE_LANE_SUCCESS) "A" 1) /\
  Apply (sample_flags false) 1 [lane_unnamed; lane_B]
        (sample_context (Some IN_CHANGE_LANE) "A" 0)
  = (false, [lane_unnamed; lane_B], sample_context (Some IN_CHANGE_LANE) "A" 0).
Proof.
  split; [|split].
  - apply (Apply_in_change_lane
             (sample_flags false) 1 [lane_A; lane_B]
             (sample_context (Some IN_CHANGE_LANE) "A" 0) lane_A);
      [reflexivity | reflexivity | simpl; lia | reflexivity | discriminate
      | reflexivity].
  - apply (Apply_in_change_lane
             (sample_flags false) 1 [lane_A; lane_B]
             (sample_context (Some IN_CHANGE_LANE) "Z" 0) lane_A);
      [reflexivity | reflexivity | simpl; lia | reflexivity | discriminate
      | discriminate].
  - apply (Apply_in_change_lane
             (sample_flags false) 1 [lane_unnamed; lane_B]
             (sample_context (Some IN_CHANGE_LANE) "A" 0) lane_unnamed);
      [reflexivity | reflexivity | simpl; lia | reflexivity | reflexivity].
Defined.

(** C6 as stated fails: with [IN_CHANGE_LANE] on record and
    [unnamed, B(change)], there are two candidates and a current
    (non-change) candidate exists.  Whether the recorded path id equals the
    current candidate's (empty) id or differs from it, [Apply] fails: it
    neither moves nor removes [B], and the status on record stays as it
    was. *)
Lemma Apply_in_change_lane_unnamed_fails :
  FLAGS_reckless_change_lane (sample_flags false) = false /\
  List.length [lane_unnamed; lane_B] = 2 /\
  current_candidate [lane_unnamed; lane_B] = Some lane_unnamed /\
  IsChangeLanePath lane_unnamed = false /\
  path_id (change_lane (sample_context (Some IN_CHANGE_LANE) "" 0))
  = Lanes_Id lane_unnamed /\
  Apply (sample_flags false) 1 [lane_unnamed; lane_B]
        (sample_context (Some IN_CHANGE_LANE) "" 0)
  = (false, [lane_unnamed; lane_B], sample_context (Some IN_CHANGE_LANE) "" 0) /\
  String.eqb (path_id (change_lane (sample_context (Some IN_CHANGE_LANE) "A" 0)))
             (Lanes_Id lane_unnamed) = false /\
  Apply (sample_flags false) 1 [lane_unnamed; lane_B]
        (sample_context (Some IN_CHANGE_LANE) "A" 0)
  = (false, [lane_unnamed; lane_B], sample_context (Some IN_CHANGE_LANE) "A" 0).
Proof. repeat split. Qed.

(** C2, as the code has it. In the state machine, with
    [CHANGE_LANE_FAILED] on record, more than one candidate, a current
    (non-change) candidate carrying a path id, and [now - timestamp] at least
    the failure freeze time, [Apply] succeeds and the status on record
    becomes [IN_CHANGE_LANE] with the current path id and the clock's
    reading; the candidate sequence is left exactly as it was offered. *)
Theorem Apply_failed_cooldown_expired :
  forall flags now l ctx cur,
    FLAGS_reckless_change_lane flags = false ->
    status (change_lane ctx) = Some CHANGE_LANE_FAILED ->
    1 < List.length l ->
    current_candidate l = Some cur ->
    Lanes_Id cur <> "" ->
    (FLAGS_change_lane_fail_freeze_time flags
     <=? now - timestamp (change_lane ctx))%float = true ->
    exists ctx',
      Apply flags now l ctx = (true, l, ctx') /\
      change_lane ctx'
      = mkChangeLaneStatus (Some IN_CHANGE_LANE) (Lanes_Id cur) now.
Proof.
  intros flags now l ctx cur Hreck Hst Hlen Hcur Hid Hfreeze.
  exists (UpdateStatus now IN_CHANGE_LANE (Lanes_Id cur) ctx).
  split; [|reflexivity].
  rewrite (Apply_offered _ _ _ _ _ _ Hreck Hst Hlen Hcur Hid).
  now rewrite (leb_not_ltb _ _ Hfreeze).
Qed.

Lemma Apply_failed_cooldown_expired_witness :
  exists ctx',
    Apply (sample_flags false) 2.5 [lane_A; lane_B]
          (sample_context (Some CHANGE_LANE_FAILED) "A" 0)
    = (true, [lane_A; lane_B], ctx') /\
    change_lane ctx' = mkChangeLaneStatus (Some IN_CHANGE_LANE) "A" 2.5.
Proof.
  apply (Apply_failed_cooldown_expired
           (sample_flags false) 2.5 [lane_A; lane_B]
           (sample_context (Some CHANGE_LANE_FAILED) "A" 0) lane_A).
  - reflexivity.
  - reflexivity.
  - simpl. lia.
  - reflexivity.
  - discriminate.
  - reflexivity.
Defined.

(** C2 as stated fails: failed at time 0, freeze time 2, called at 2.5 with
    [A, B(change)].  Every premise holds and the status is promoted, yet the
    sequence comes back as [A, B]: [B] has not moved to the front. *)
Lemma Apply_failed_cooldown_expired_keeps_order :
  FLAGS_reckless_change_lane (sample_flags false) = false /\
  current_candidate [lane_A; lane_B] = Some lane_A /\
  (FLAGS_change_lane_fail_freeze_time (sample_flags false) <=? 2.5 - 0)%float
  = true /\
  Apply (sample_flags false) 2.5 [lane_A; lane_B]
        (sample_context (Some CHANGE_LANE_FAILED) "A" 0)
  = (true, [lane_A; lane_B],
     UpdateStatus 2.5 IN_CHANGE_LANE "A"
                  (sample_context (Some CHANGE_LANE_FAILED) "A" 0)) /\
  ~ Prioritized [lane_A; lane_B] [lane_A; lane_B].
Proof.
  repeat split.
  intros H. inversion H as [l Hall | pre c post Hpre Hc Hl Hl'].
  - inversion Hall as [|? ? _ Hrest]. inversion Hrest as [|? ? HB _].
    discriminate HB.
  - rewrite Hl in Hl'. injection Hl' as Hc' _. rewrite Hc' in Hc.
    discriminate Hc.
Qed.

(** C3, as the code has it. With the reckless flag set, [Apply] on a
    non-empty sequence moves the first change-lane candidate to the front
    (nothing moves when there is none), succeeds, and leaves the planning
    context as it was, whatever the clock and the status on record are.
    The emptiness test comes before the flag: on the empty sequence [Apply]
    fails. *)
Theorem Apply_reckless :
  forall flags now l ctx,
    FLAGS_reckless_change_lane flags = true ->
    (l <> [] ->
     exists l', Apply flags now l ctx = (true, l', ctx) /\ Prioritized l l') /\
    (l = [] -> Apply flags now l ctx = (false, [], ctx)).
Proof.
  intros flags now l ctx Hreck. split.
  - intros Hne. exists (PrioritizeChangeLane l).
    split; [|apply PrioritizeChangeLane_Prioritized].
    unfold Apply. destruct l; [contradiction|]. now rewrite Hreck.
  - intros ->. reflexivity.
Qed.

Lemma Apply_reckless_witness :
  (exists l',
      Apply (sample_flags true) 1 [lane_A; lane_B; lane_C]
            (sample_context (Some CHANGE_LANE_FAILED) "A" 0)
      = (true, l', sample_context (Some CHANGE_LANE_FAILED) "A" 0) /\
      Prioritized [lane_A; lane_B; lane_C] l') /\
  Apply (sample_flags true) 1 [] (sample_context None "" 0)
  = (false, [], sample_context None "" 0).
Proof.
  split.
  - apply (Apply_reckless (sample_flags true) 1 [lane_A; lane_B; lane_C]
             (sample_context (Some CHANGE_LANE_FAILED) "A" 0));
      [reflexivity | discriminate].
  - apply (Apply_reckless (sample_flags true) 1 []
             (sample_context None "" 0)); reflexivity.
Defined.

(** C3 as stated fails on the empty sequence: with the reckless flag set,
    [Apply] reports failure there. *)
Lemma Apply_reckless_empty_fails :
  FLAGS_reckless_change_lane (sample_flags true) = true /\
  Apply (sample_flags true) 1 [] (sample_context None "" 0)
  = (false, [], sample_context None "" 0).
Proof. split; reflexivity. Qed.

(** [Apply] never adds a change-lane candidate. *)
Lemma Apply_change_lane_count :
  forall flags now l ctx ok l' ctx',
    Apply flags now l ctx = (ok, l', ctx') ->
    change_lane_count l' <= change_lane_count l.
Proof.
  intros flags now l ctx ok l' ctx' H.
  assert (HP : change_lane_count (PrioritizeChangeLane l) <= change_lane_count l).
  { rewrite (Prioritized_change_lane_count _ _ (PrioritizeChangeLane_Prioritized l)).
    lia. }
  assert (HR : change_lane_count (RemoveChangeLane l) <= change_lane_count l).
  { rewrite RemoveChangeLane_Discarded, Discarded_change_lane_count. lia. }
  unfold Apply in H.
  destruct l as [|front rest]; [injection H as _ <- _; lia|].
  repeat match type of H with
         | (if ?b then _ else _) = _ => destruct b
         | (let _ := _ in _) = _ => cbv zeta in H
         end;
    injection H as _ <- _; try assumption; lia.
Qed.

(** A successful call of the state machine is on a discard branch and
    has pruned the sequence, or is on none and has left the sequence as
    offered or prioritized. *)
Lemma Apply_success_cases :
  forall flags now l ctx l' ctx',
    l <> [] ->
    FLAGS_reckless_change_lane flags = false ->
    Apply flags now l ctx = (true, l', ctx') ->
    (on_discard_branch flags now l ctx /\ l' = RemoveChangeLane l) \/
    (~ on_discard_branch flags now l ctx /\
     (l' = l \/ l' = PrioritizeChangeLane l)).
Proof.
  intros flags now l ctx l' ctx' Hne Hreck H.
  unfold on_discard_branch. unfold Apply in H.
  destruct l as [|front rest]; [contradiction|].
  rewrite Hreck in H. unfold has_status, status_is in H.
  destruct (status (change_lane ctx)) as [code|] eqn:Hst; cbn [negb] in H.
  2:{ right. split; [|left; congruence].
      intros (_ & [(E & _) | [(E & _) | (E & _)]]); discriminate E. }
  destruct (Nat.ltb_spec 1 (List.length (front :: rest))) as [Hlen | Hlen];
    cbn [negb] in H.
  2:{ right. split; [intros (Hlt & _); lia|]. left.
      destruct code; cbn [Status_eqb] in H; congruence. }
  destruct (GetCurrentPathId (front :: rest)) as [|a s] eqn:Hid;
    cbn [string_empty] in H; [discriminate H|].
  destruct code; cbn [Status_eqb] in H.
  - destruct (String.eqb_spec (path_id (change_lane ctx)) (String a s))
      as [E | NE].
    + right. split; [|right; congruence].
      intros (_ & [(_ & N) | [(N & _) | (N & _)]]);
        [contradiction | discriminate N | discriminate N].
    + left. split; [|congruence]. split; [assumption|]. left. now split.
  - destruct (now - timestamp (change_lane ctx)
              <? FLAGS_change_lane_fail_freeze_time flags)%float eqn:Hf.
    + left. split; [|congruence]. split; [assumption|]. right. left. now split.
    + right. split; [|left; congruence].
      intros (_ & [(N & _) | [(_ & N) | (N & _)]]); discriminate N.
  - destruct (now - timestamp (change_lane ctx)
              <? FLAGS_change_lane_success_freeze_time flags)%float eqn:Hf.
    + left. split; [|congruence]. split; [assumption|]. right. right. now split.
    + right. split; [|right; congruence].
      intros (_ & [(N & _) | [(N & _) | (_ & N)]]); discriminate N.
Qed.

(** C1, as the code has it. Whenever [Apply] succeeds on a non-empty
    sequence in the state machine (no reckless flag), whatever the status on
    record: on a discard branch every change-lane candidate has been removed
    and none is left; on every other branch the sequence is as offered or
    has its first change-lane candidate moved to the front, and holds as
    many change-lane candidates as were offered.  So none or as many as
    offered are left, and at most one when at most one was offered. *)
Theorem Apply_at_most_one_change_lane :
  forall flags now l ctx l' ctx',
    l <> [] ->
    FLAGS_reckless_change_lane flags = false ->
    Apply flags now l ctx = (true, l', ctx') ->
    (on_discard_branch flags now l ctx ->
     l' = Discarded l /\ change_lane_count l' = 0) /\
    (~ on_discard_branch flags now l ctx ->
     (l' = l \/ Prioritized l l') /\
     change_lane_count l' = change_lane_count l) /\
    (change_lane_count l' = 0 \/ change_lane_count l' = change_lane_count l) /\
    (change_lane_count l <= 1 -> change_lane_count l' <= 1).
Proof.
  intros flags now l ctx l' ctx' Hne Hreck H.
  pose proof (PrioritizeChangeLane_Prioritized l) as HP.
  pose proof (Prioritized_change_lane_count _ _ HP) as HPc.
  pose proof (Discarded_change_lane_count l) as HDc.
  destruct (Apply_success_cases _ _ _ _ _ _ Hne Hreck H)
    as [[Hd ->] | [Hnd [-> | ->]]];
    rewrite ?RemoveChangeLane_Discarded;
    (split; [|split; [|split]]);
    try (intros; contradiction); try tauto; try lia.
Qed.

Lemma Apply_at_most_one_change_lane_witness :
  ([lane_A] = Discarded [lane_A; lane_B; lane_C] /\
   change_lane_count [lane_A] = 0) /\
  (([lane_B; lane_A] = [lane_A; lane_B] \/
    Prioritized [lane_A; lane_B] [lane_B; lane_A]) /\
   change_lane_count [lane_B; lane_A] = change_lane_count [lane_A; lane_B]).
Proof.
  split.
  - apply (proj1
             (Apply_at_most_one_change_lane
                (sample_flags false) 1 [lane_A; lane_B; lane_C]
                (sample_context (Some CHANGE_LANE_FAILED) "A" 0)
                [lane_A] (sample_context (Some CHANGE_LANE_FAILED) "A" 0)
                ltac:(discriminate) eq_refl eq_refl)).
    split; [simpl; lia|]. right. left. split; reflexivity.
  - apply (proj1 (proj2
             (Apply_at_most_one_change_lane
                (sample_flags false) 5 [lane_A; lane_B]
                (sample_context (Some CHANGE_LANE_SUCCESS) "A" 0)
                [lane_B; lane_A]
                (UpdateStatus 5 IN_CHANGE_LANE "A"
                   (sample_context (Some CHANGE_LANE_SUCCESS) "A" 0))
                ltac:(discriminate) eq_refl eq_refl))).
    intros (_ & [(N & _) | [(N & _) | (_ & N)]]); discriminate N.
Defined.

(** C1 as stated fails: mid-maneuver ([IN_CHANGE_LANE] on the current path)
    with [A, B(change), C(change)], [Apply] succeeds in the state machine
    and leaves [B, A, C] behind, two change-lane candidates. *)
Lemma Apply_leaves_two_change_lane :
  FLAGS_reckless_change_lane (sample_flags false) = false /\
  Apply (sample_flags false) 1 [lane_A; lane_B; lane_C]
        (sample_context (Some IN_CHANGE_LANE) "A" 0)
  = (true, [lane_B; lane_A; lane_C],
     sample_context (Some IN_CHANGE_LANE) "A" 0) /\
  change_lane_count [lane_B; lane_A; lane_C] = 2.
Proof. repeat split. Qed.

(** The current path id is tested for emptiness, not the candidate for
    existence: a current candidate without a path id makes [Apply] fail as if
    the vehicle were on no reference line. *)
Lemma Apply_unnamed_current_lane_fails :
  current_candidate [lane_unnamed; lane_B] = Some lane_unnamed /\
  Apply (sample_flags false) 1 [lane_unnamed; lane_B]
        (sample_context (Some CHANGE_LANE_FAILED) "A" 0)
  = (false, [lane_unnamed; lane_B],
     sample_context (Some CHANGE_LANE_FAILED) "A" 0).
Proof. split; reflexivity. Qed.
(** ** The clearance scan *)

Section ClearanceProperties.

Variable NormalizeAngle : float -> float.

Lemma Find_middle :
  forall done o rest,
    ~ In (Id o) (map Id done) ->
    Find (Id o) (done ++ o :: rest) = Some o.
Proof.
  induction done as [|d done IH]; intros o rest Hnotin; simpl.
  - now rewrite String.eqb_refl.
  - simpl in Hnotin.
    destruct (String.eqb_spec (Id d) (Id o)) as [E | _]; [tauto|].
    apply IH. tauto.
Qed.

Lemma store_blocking_middle :
  forall done o rest b,
    ~ In (Id o) (map Id done) ->
    store_blocking (Id o) b (done ++ o :: rest)
    = done ++ SetLaneChangeBlocking b o :: rest.
Proof.
  induction done as [|d done IH]; intros o rest b Hnotin; simpl.
  - now rewrite String.eqb_refl.
  - simpl in Hnotin.
    destruct (String.eqb_spec (Id d) (Id o)) as [E | _]; [tauto|].
    rewrite IH; [reflexivity | tauto].
Qed.

Lemma NoDup_ids_middle :
  forall done o rest,
    NoDup (map Id (done ++ o :: rest)) ->
    ~ In (Id o) (map Id done) /\
    forall b, NoDup (map Id ((done ++ [SetLaneChangeBlocking b o]) ++ rest)).
Proof.
  intros done o rest Hnd. split.
  - rewrite map_app in Hnd. simpl in Hnd.
    apply NoDup_remove_2 in Hnd. intros Hin. apply Hnd.
    apply in_or_app. now left.
  - intros b. rewrite <- app_assoc. simpl.
    rewrite map_app in *. simpl in *. exact Hnd.
Qed.

(** The loop through the registry does what the recursion on the obstacles
    does, as long as the registry keeps one obstacle per id. *)
Lemma scan_obstacles_outcome :
  forall info todo done journal,
    NoDup (map Id (done ++ todo)) ->
    scan_obstacles NormalizeAngle info (map Id todo)
                   (mkPathDecision (done ++ todo) journal)
    = let '(ok, obs, w) := scan_outcome NormalizeAngle info todo in
      (ok, mkPathDecision (done ++ obs) (rev w ++ journal)).
Proof.
  intros info todo. induction todo as [|o rest IH]; intros done journal Hnd.
  - reflexivity.
  - destruct (NoDup_ids_middle _ _ _ Hnd) as [Hnotin Hnd'].
    simpl map. simpl scan_obstacles. simpl obstacles.
    rewrite (Find_middle _ _ _ Hnotin).
    simpl scan_outcome. unfold skipped.
    assert (Hskip : forall j,
               scan_obstacles NormalizeAngle info (map Id rest)
                              (mkPathDecision (done ++ o :: rest) j)
               = let '(ok, obs, w) := scan_outcome NormalizeAngle info rest in
                 (ok, mkPathDecision (done ++ o :: obs) (rev w ++ j))).
    { intros j.
      replace (done ++ o :: rest) with ((done ++ [o]) ++ rest)
        by now rewrite <- app_assoc.
      rewrite IH by (now rewrite <- app_assoc).
      destruct (scan_outcome NormalizeAngle info rest) as [[ok obs] w].
      now rewrite <- app_assoc. }
    destruct (IsVirtual o || IsStatic o) eqn:Hvs; simpl orb.
    { rewrite Hskip. now destruct (scan_outcome NormalizeAngle info rest) as [[ok obs] w]. }
    destruct (out_of_corridor info o) eqn:Hout.
    { rewrite Hskip. now destruct (scan_outcome NormalizeAngle info rest) as [[ok obs] w]. }
    destruct (blocks NormalizeAngle info o) eqn:Hb.
    { unfold Find_SetLaneChangeBlocking. simpl obstacles. simpl blocking_writes.
      now rewrite (store_blocking_middle _ _ _ _ Hnotin). }
    unfold Find_SetLaneChangeBlocking. simpl obstacles. simpl blocking_writes.
    rewrite (store_blocking_middle _ _ _ _ Hnotin).
    replace (done ++ SetLaneChangeBlocking false o :: rest)
      with ((done ++ [SetLaneChangeBlocking false o]) ++ rest)
      by now rewrite <- app_assoc.
    rewrite IH by apply Hnd'.
    destruct (scan_outcome NormalizeAngle info rest) as [[ok obs] w].
    simpl rev. now rewrite <- !app_assoc.
Qed.

Lemma scan_outcome_clear :
  forall info todo,
    no_blocker NormalizeAngle info todo ->
    fst (scan_outcome NormalizeAngle info todo)
    = (true, map (mark_clear info) todo).
Proof.
  intros info todo H. induction H as [|o rest Ho _ IH]; [reflexivity|].
  simpl. unfold mark_clear at 1.
  destruct (scan_outcome NormalizeAngle info rest) as [[ok obs] w].
  simpl in IH. injection IH as -> ->.
  destruct (skipped info o) eqn:Hs; [reflexivity|].
  now rewrite (Ho eq_refl).
Qed.

Lemma scan_outcome_blocked :
  forall info pre o post,
    no_blocker NormalizeAngle info pre ->
    skipped info o = false ->
    blocks NormalizeAngle info o = true ->
    fst (scan_outcome NormalizeAngle info (pre ++ o :: post))
    = (false, map (mark_clear info) pre ++ SetLaneChangeBlocking true o :: post).
Proof.
  intros info pre o post H Hs Hb.
  induction H as [|p pre Hp _ IH]; simpl.
  - now rewrite Hs, Hb.
  - unfold mark_clear at 1.
    destruct (scan_outcome NormalizeAngle info (pre ++ o :: post)) as [[ok obs] w].
    simpl in IH. injection IH as -> ->.
    destruct (skipped info p) eqn:Hsp; [reflexivity|].
    now rewrite (Hp eq_refl).
Qed.


Lemma IsClearToChangeLane_outcome :
  forall info,
    NoDup (map Id (obstacles (path_decision info))) ->
    IsClearToChangeLane NormalizeAngle info
    = let '(ok, obs, w) :=
        scan_outcome NormalizeAngle info (obstacles (path_decision info)) in
      (ok, mkPathDecision obs (rev w ++ blocking_writes (path_decision info))).
Proof.
  intros info Hnd. unfold IsClearToChangeLane, Items.
  destruct (path_decision info) as [obs journal]. simpl in *.
  exact (scan_obstacles_outcome info obs [] journal Hnd).
Qed.

End ClearanceProperties.


(** ** Writes per cycle *)

(** [Apply] leaves the planning context as it was or makes one
    [UpdateStatus] at the clock's reading. *)
Lemma Apply_context :
  forall flags now l ctx,
    snd (Apply flags now l ctx) = ctx \/
    exists code id, snd (Apply flags now l ctx) = UpdateStatus now code id ctx.
Proof.
  intros flags now l ctx. unfold Apply.
  destruct l as [|front rest]; [now left|].
  repeat match goal with
         | |- context [if ?b then _ else _] => destruct b
         end;
    simpl; auto; right; eauto.
Qed.

(** ** The hysteresis filter *)

(** Between ordered thresholds [lo <= hi], "below [hi]" and "below [lo]"
    differ exactly on the band [lo <= gap < hi]. *)
Lemma ltb_band :
  forall gap lo hi,
    (lo <=? hi)%float = true ->
    ((gap <? hi)%float <> (gap <? lo)%float <->
     (lo <=? gap)%float = true /\ (gap <? hi)%float = true).
Proof.
  intros gap lo hi Hord. split.
  - intros Hne.
    destruct (gap <? hi)%float eqn:Hhi, (gap <? lo)%float eqn:Hlo;
      try congruence.
    + split; [|reflexivity]. apply not_ltb_leb; try assumption.
      * apply ltb_key in Hhi. tauto.
      * apply leb_key in Hord. tauto.
    + rewrite (ltb_leb_trans _ _ _ Hlo Hord) in Hhi. discriminate.
  - intros [Hlo Hhi]. rewrite Hhi, (leb_not_ltb _ _ Hlo). discriminate.
Qed.

(** The buffer must be finite for the band to describe the filter: with
    safe distance and buffer both infinite the upper threshold is infinite
    and the lower one is NaN, and the two runs disagree at gap 0, which lies
    in no band. *)
Lemma HysteresisFilter_nan_threshold :
  (0 <=? infinity)%float = true /\
  HysteresisFilter 0 infinity infinity true = true /\
  HysteresisFilter 0 infinity infinity false = false /\
  (infinity - infinity <=? 0)%float = false.
Proof. repeat split. Qed.

(** C5. For every gap, every safe distance and every non-negative (finite)
    buffer, the filter answers [gap < safe + buffer] when the obstacle was
    blocking and [gap < safe - buffer] when it was not; the two answers
    differ exactly when the gap lies in the band
    [safe - buffer <= gap < safe + buffer], and outside the band the answer
    does not depend on the previous flag.  Sums, differences and comparisons
    are the binary64 ones. *)
Theorem HysteresisFilter_band :
  forall gap safe buffer,
    (0 <=? buffer)%float = true ->
    (buffer <? infinity)%float = true ->
    HysteresisFilter gap safe buffer true = (gap <? safe + buffer)%float /\
    HysteresisFilter gap safe buffer false = (gap <? safe - buffer)%float /\
    (HysteresisFilter gap safe buffer true
     <> HysteresisFilter gap safe buffer false <->
     (safe - buffer <=? gap)%float = true /\
     (gap <? safe + buffer)%float = true) /\
    ((safe - buffer <=? gap)%float && (gap <? safe + buffer)%float = false ->
     HysteresisFilter gap safe buffer true
     = HysteresisFilter gap safe buffer false).
Proof.
  intros gap safe buffer Hnn Hfin.
  assert (Hband :
            (gap <? safe + buffer)%float <> (gap <? safe - buffer)%float <->
            (safe - buffer <=? gap)%float = true /\
            (gap <? safe + buffer)%float = true).
  { destruct (Prim2SF safe) eqn:Hsafe;
      try (apply ltb_band, sub_le_add; try assumption;
           unfold is_number; rewrite Hsafe; discriminate).
    destruct (nan_thresholds safe buffer gap Hsafe) as (H1 & H2 & H3).
    rewrite H1, H2, H3. split; [congruence | intros [H _]; discriminate]. }
  split; [reflexivity|]. split; [reflexivity|]. split; [exact Hband|].
  intros Hout. unfold HysteresisFilter.
  destruct (bool_dec (gap <? safe + buffer)%float (gap <? safe - buffer)%float)
    as [E | NE]; [assumption|].
  apply Hband in NE. destruct NE as [H1 H2].
  rewrite H1, H2 in Hout. discriminate.
Qed.

Lemma HysteresisFilter_band_witness :
  HysteresisFilter 8 8 0.5 true = (8 <? 8 + 0.5)%float /\
  HysteresisFilter 8 8 0.5 false = (8 <? 8 - 0.5)%float /\
  (HysteresisFilter 8 8 0.5 true <> HysteresisFilter 8 8 0.5 false <->
   (8 - 0.5 <=? 8)%float = true /\ (8 <? 8 + 0.5)%float = true) /\
  ((8 - 0.5 <=? 8)%float && (8 <? 8 + 0.5)%float = false ->
   HysteresisFilter 8 8 0.5 true = HysteresisFilter 8 8 0.5 false).
Proof.
  apply (HysteresisFilter_band 8 8 0.5); reflexivity.
Defined.

(** * Further properties *)

(** ** Reordering and pruning *)

Lemma Discarded_app :
  forall l1 l2, Discarded (l1 ++ l2) = Discarded l1 ++ Discarded l2.
Proof. intros. unfold Discarded. apply filter_app. Qed.

Lemma Discarded_none :
  forall l, Forall (fun c => IsChangeLanePath c = false) l -> Discarded l = l.
Proof.
  induction 1 as [|c l Hc _ IH]; [reflexivity|].
  unfold Discarded in *. simpl. now rewrite Hc, IH.
Qed.

Lemma Prioritized_Discarded :
  forall l l', Prioritized l l' -> Discarded l' = Discarded l.
Proof.
  intros l l' H. destruct H as [l _ | pre c post _ Hc]; [reflexivity|].
  change (c :: pre ++ post) with ([c] ++ pre ++ post).
  change (c :: post) with ([c] ++ post).
  rewrite !Discarded_app. unfold Discarded at 1 4. simpl. now rewrite Hc.
Qed.

Lemma Prioritized_Permutation :
  forall l l', Prioritized l l' -> Permutation l l'.
Proof.
  intros l l' H. destruct H as [l _ | pre c post _ _]; [reflexivity|].
  symmetry. apply Permutation_middle.
Qed.

Lemma GetCurrentPathId_Discarded :
  forall l, GetCurrentPathId (Discarded l) = GetCurrentPathId l.
Proof.
  induction l as [|c l IH]; [reflexivity|].
  unfold Discarded in *. simpl.
  destruct (IsChangeLanePath c) eqn:Hc; simpl; [assumption|].
  now rewrite Hc.
Qed.

(** X1. [PrioritizeChangeLane] only reorders: its result is a permutation
    of the sequence, the candidates that are not change-lane paths keep
    their relative order, and whenever the sequence holds a change-lane
    candidate the result starts with one. *)
Theorem PrioritizeChangeLane_reorders :
  forall l,
    Permutation l (PrioritizeChangeLane l) /\
    Discarded (PrioritizeChangeLane l) = Discarded l /\
    (0 < change_lane_count l ->
     exists c rest,
       PrioritizeChangeLane l = c :: rest /\ IsChangeLanePath c = true).
Proof.
  intros l. pose proof (PrioritizeChangeLane_Prioritized l) as H.
  split; [now apply Prioritized_Permutation|].
  split; [now apply Prioritized_Discarded|].
  intros Hcount.
  destruct (first_change_lane_split l) as [Hall | (pre & c & post & -> & Hpre & Hc)].
  - exfalso. unfold change_lane_count in Hcount.
    assert (E : filter IsChangeLanePath l = []).
    { clear Hcount H. induction Hall as [|a l Ha _ IH]; [reflexivity|].
      simpl. now rewrite Ha. }
    rewrite E in Hcount. simpl in Hcount. lia.
  - exists c, (pre ++ post). split; [|assumption].
    now apply PrioritizeChangeLane_front.
Qed.

Lemma PrioritizeChangeLane_reorders_witness :
  exists c rest,
    PrioritizeChangeLane [lane_A; lane_B; lane_C] = c :: rest /\
    IsChangeLanePath c = true.
Proof.
  apply (proj2 (proj2 (PrioritizeChangeLane_reorders [lane_A; lane_B; lane_C]))).
  vm_compute. lia.
Defined.

(** X2. [PrioritizeChangeLane] is idempotent: a sequence already
    prioritized is left as it is. *)
Theorem PrioritizeChangeLane_idempotent :
  forall l,
    PrioritizeChangeLane (PrioritizeChangeLane l) = PrioritizeChangeLane l.
Proof.
  intros l.
  destruct (first_change_lane_split l) as [Hall | (pre & c & post & -> & Hpre & Hc)].
  - rewrite (PrioritizeChangeLane_none l Hall).
    now apply PrioritizeChangeLane_none.
  - rewrite PrioritizeChangeLane_front by assumption.
    apply (PrioritizeChangeLane_front [] c (pre ++ post)); [constructor | assumption].
Qed.

(** X3. [RemoveChangeLane] leaves no change-lane candidate and removes
    nothing else; it is idempotent, it changes nothing when the sequence
    holds no change-lane candidate, and running [PrioritizeChangeLane]
    before it makes no difference. *)
Theorem RemoveChangeLane_prunes :
  forall l,
    Forall (fun c => IsChangeLanePath c = false) (RemoveChangeLane l) /\
    (forall c, In c l -> IsChangeLanePath c = false ->
               In c (RemoveChangeLane l)) /\
    RemoveChangeLane (RemoveChangeLane l) = RemoveChangeLane l /\
    (change_lane_count l = 0 -> RemoveChangeLane l = l) /\
    RemoveChangeLane (PrioritizeChangeLane l) = RemoveChangeLane l.
Proof.
  intros l. rewrite !RemoveChangeLane_Discarded.
  assert (Hall : Forall (fun c => IsChangeLanePath c = false) (Discarded l)).
  { apply Forall_forall. intros c Hin. unfold Discarded in Hin.
    apply filter_In in Hin. destruct Hin as [_ Hc].
    now apply negb_true_iff in Hc. }
  repeat split.
  - assumption.
  - intros c Hin Hc. unfold Discarded. apply filter_In.
    split; [assumption | now rewrite Hc].
  - now apply Discarded_none.
  - intros Hcount. apply Discarded_none.
    destruct (first_change_lane_split l) as [H | (pre & c & post & -> & _ & Hc)];
      [assumption|].
    exfalso. rewrite change_lane_count_app in Hcount.
    unfold change_lane_count at 2 in Hcount. simpl in Hcount.
    rewrite Hc in Hcount. simpl in Hcount. lia.
  - apply Prioritized_Discarded, PrioritizeChangeLane_Prioritized.
Qed.

Lemma RemoveChangeLane_prunes_witness :
  RemoveChangeLane [lane_A] = [lane_A].
Proof.
  apply (proj1 (proj2 (proj2 (proj2 (RemoveChangeLane_prunes [lane_A]))))).
  reflexivity.
Defined.

(** X4. The current path id depends on the candidates that are not
    change-lane paths only: neither [PrioritizeChangeLane] nor
    [RemoveChangeLane] changes what [GetCurrentPathId] returns, and a
    non-empty result is the path id of a candidate of the sequence that is
    not a change-lane path. *)
Theorem GetCurrentPathId_stable :
  forall l,
    GetCurrentPathId (PrioritizeChangeLane l) = GetCurrentPathId l /\
    GetCurrentPathId (RemoveChangeLane l) = GetCurrentPathId l /\
    (GetCurrentPathId l <> "" ->
     exists c, In c l /\ IsChangeLanePath c = false /\
               Lanes_Id c = GetCurrentPathId l).
Proof.
  intros l. split; [|split].
  - rewrite <- (GetCurrentPathId_Discarded (PrioritizeChangeLane l)).
    rewrite (Prioritized_Discarded _ _ (PrioritizeChangeLane_Prioritized l)).
    apply GetCurrentPathId_Discarded.
  - rewrite RemoveChangeLane_Discarded. apply GetCurrentPathId_Discarded.
  - induction l as [|c l IH]; simpl; [congruence|].
    destruct (IsChangeLanePath c) eqn:Hc; simpl.
    + intros H. destruct (IH H) as (c' & Hin & Hc' & Hid).
      exists c'. auto.
    + intros _. exists c. auto.
Qed.

Lemma GetCurrentPathId_stable_witness :
  exists c, In c [lane_B; lane_A] /\ IsChangeLanePath c = false /\
            Lanes_Id c = GetCurrentPathId [lane_B; lane_A].
Proof.
  apply (proj2 (proj2 (GetCurrentPathId_stable [lane_B; lane_A]))).
  discriminate.
Defined.

(** ** More of the state machine *)

(** The candidate list [Apply] leaves is the one offered, prioritized or
    pruned. *)
Lemma Apply_list_cases :
  forall flags now l ctx,
    snd (fst (Apply flags now l ctx)) = l \/
    snd (fst (Apply flags now l ctx)) = PrioritizeChangeLane l \/
    snd (fst (Apply flags now l ctx)) = RemoveChangeLane l.
Proof.
  intros flags now l ctx. unfold Apply.
  destruct l as [|front rest]; [now left|].
  repeat match goal with
         | |- context [if ?b then _ else _] => destruct b
         end;
    simpl; auto.
Qed.

(** X5. [Apply] fails in two situations only: on the empty sequence, and,
    in the state machine with a status on record and more than one
    candidate, when [GetCurrentPathId] finds no path id.  The unknown-state
    branches are never taken.  A failing call leaves the sequence and the
    planning context as they were. *)
Theorem Apply_fails_iff :
  forall flags now l ctx,
    (fst (fst (Apply flags now l ctx)) = false <->
     l = [] \/
     (FLAGS_reckless_change_lane flags = false /\
      has_status (change_lane ctx) = true /\
      1 < List.length l /\
      GetCurrentPathId l = "")) /\
    (fst (fst (Apply flags now l ctx)) = false ->
     Apply flags now l ctx = (false, l, ctx)).
Proof.
  intros flags now l ctx. unfold Apply.
  destruct l as [|front rest].
  { split; [split; auto | reflexivity]. }
  destruct (FLAGS_reckless_change_lane flags).
  { split; [split; [discriminate | intros [H | (H & _)]; discriminate]
           | discriminate]. }
  unfold has_status, status_is.
  destruct (status (change_lane ctx)) as [code|]; cbn [negb].
  2:{ split; [split; [discriminate | intros [H | (_ & H & _)]; discriminate]
             | discriminate]. }
  destruct (Nat.ltb_spec 1 (List.length (front :: rest))) as [Hlen | Hlen];
    cbn [negb].
  2:{ destruct code; cbn [Status_eqb];
      (split; [split; [discriminate | intros [H | (_ & _ & H & _)];
                                      [discriminate | lia]]
              | discriminate]). }
  destruct (GetCurrentPathId (front :: rest)) as [|a s] eqn:Hid;
    cbn [string_empty].
  { split; [split; [intros _; right; auto | reflexivity] | reflexivity]. }
  destruct code; cbn [Status_eqb];
    repeat match goal with
           | |- context [if ?b then _ else _] => destruct b
           end;
    cbn [fst snd];
    (split; [split; [discriminate | intros [H | (_ & _ & _ & H)]; discriminate]
            | discriminate]).
Qed.

Lemma Apply_fails_iff_witness :
  Apply (sample_flags false) 1 [lane_B; lane_C]
        (sample_context (Some CHANGE_LANE_SUCCESS) "A" 0)
  = (false, [lane_B; lane_C], sample_context (Some CHANGE_LANE_SUCCESS) "A" 0).
Proof.
  apply (proj2 (Apply_fails_iff (sample_flags false) 1 [lane_B; lane_C]
                  (sample_context (Some CHANGE_LANE_SUCCESS) "A" 0))).
  reflexivity.
Defined.

(** X6. [Apply] never touches the candidates that are not change-lane
    paths and never invents a candidate: those candidates are left behind in
    the order offered, every candidate left behind was offered, and the
    current path id read from the sequence is the same after the call. *)
Theorem Apply_keeps_current_lanes :
  forall flags now l ctx,
    Discarded (snd (fst (Apply flags now l ctx))) = Discarded l /\
    incl (snd (fst (Apply flags now l ctx))) l /\
    GetCurrentPathId (snd (fst (Apply flags now l ctx))) = GetCurrentPathId l.
Proof.
  intros flags now l ctx.
  pose proof (PrioritizeChangeLane_Prioritized l) as HP.
  destruct (Apply_list_cases flags now l ctx) as [-> | [-> | ->]].
  - repeat split. apply incl_refl.
  - split; [now apply Prioritized_Discarded|]. split.
    + intros c Hc. apply Permutation_in with (l := PrioritizeChangeLane l);
        [symmetry; now apply Prioritized_Permutation | assumption].
    + rewrite <- (GetCurrentPathId_Discarded (PrioritizeChangeLane l)).
      rewrite (Prioritized_Discarded _ _ HP). apply GetCurrentPathId_Discarded.
  - rewrite RemoveChangeLane_Discarded. split; [|split].
    + apply Discarded_none. apply Forall_forall. intros c Hin.
      unfold Discarded in Hin. apply filter_In in Hin.
      now apply negb_true_iff.
    + intros c Hc. unfold Discarded in Hc. now apply filter_In in Hc.
    + apply GetCurrentPathId_Discarded.
Qed.

(** X7. [Apply] never unsets the status: a status on record before the
    call is on record after it, and after every successful call of the state
    machine (no reckless flag) a status is on record. *)
Theorem Apply_status_stays_set :
  forall flags now l ctx,
    (has_status (change_lane ctx) = true ->
     has_status (change_lane (snd (Apply flags now l ctx))) = true) /\
    (FLAGS_reckless_change_lane flags = false ->
     fst (fst (Apply flags now l ctx)) = true ->
     has_status (change_lane (snd (Apply flags now l ctx))) = true).
Proof.
  intros flags now l ctx. split.
  - intros H.
    destruct (Apply_context flags now l ctx) as [-> | (code & id & ->)];
      [assumption | reflexivity].
  - intros Hreck Hok.
    destruct (has_status (change_lane ctx)) eqn:Hst.
    + destruct (Apply_context flags now l ctx) as [-> | (code & id & ->)];
        [assumption | reflexivity].
    + unfold Apply in *. destruct l as [|front rest]; [discriminate|].
      rewrite Hreck in *. rewrite Hst in *. reflexivity.
Qed.

Lemma Apply_status_stays_set_witness :
  has_status
    (change_lane
       (snd (Apply (sample_flags false) 1 [lane_A; lane_B]
                   (sample_context None "" 0)))) = true.
Proof.
  apply (proj2 (Apply_status_stays_set (sample_flags false) 1 [lane_A; lane_B]
                  (sample_context None "" 0))); reflexivity.
Defined.

(** X8. Bootstrap.  With the reckless flag unset and no status on record,
    every sequence that holds a candidate that is not a change-lane path is
    accepted and left exactly as offered, however many change-lane
    candidates it holds, and the status on record becomes
    [CHANGE_LANE_SUCCESS] with the path id of the first candidate that is
    not a change-lane path and the clock's reading; the journal of the
    status has grown by that one record. *)
Theorem Apply_bootstrap :
  forall flags now l ctx cur,
    FLAGS_reckless_change_lane flags = false ->
    status (change_lane ctx) = None ->
    current_candidate l = Some cur ->
    exists ctx',
      Apply flags now l ctx = (true, l, ctx') /\
      change_lane ctx'
      = mkChangeLaneStatus (Some CHANGE_LANE_SUCCESS) (Lanes_Id cur) now /\
      change_lane_writes ctx' = change_lane ctx' :: change_lane_writes ctx.
Proof.
  intros flags now l ctx cur Hreck Hst Hcur.
  exists (UpdateStatus now CHANGE_LANE_SUCCESS (Lanes_Id cur) ctx).
  split; [|split; reflexivity].
  unfold Apply. destruct l as [|front rest]; [discriminate|].
  rewrite Hreck. unfold has_status. rewrite Hst. cbn [negb].
  now rewrite (GetCurrentPathId_current _ _ Hcur).
Qed.

Lemma Apply_bootstrap_witness :
  exists ctx',
    Apply (sample_flags false) 7 [lane_B; lane_A; lane_C]
          (sample_context None "" 0)
    = (true, [lane_B; lane_A; lane_C], ctx') /\
    change_lane ctx' = mkChangeLaneStatus (Some CHANGE_LANE_SUCCESS) "A" 7 /\
    change_lane_writes ctx' = [change_lane ctx'].
Proof.
  apply (Apply_bootstrap (sample_flags false) 7 [lane_B; lane_A; lane_C]
           (sample_context None "" 0) lane_A); reflexivity.
Defined.

(** X9. A single candidate ends the maneuver.  With the reckless flag
    unset, a status on record and a single candidate, [Apply] succeeds and
    leaves the candidate in place, whether or not it is a change-lane path
    and whatever its path id is, the empty one included.  With
    [IN_CHANGE_LANE] on record the status becomes [CHANGE_LANE_SUCCESS] with
    that candidate's path id and the clock's reading; with
    [CHANGE_LANE_SUCCESS] or [CHANGE_LANE_FAILED] on record the planning
    context stays as it is, timestamp included.  In every case the status
    left on record is not [IN_CHANGE_LANE]. *)
Theorem Apply_single_candidate :
  forall flags now c ctx code,
    FLAGS_reckless_change_lane flags = false ->
    status (change_lane ctx) = Some code ->
    exists ctx',
      Apply flags now [c] ctx = (true, [c], ctx') /\
      (code = IN_CHANGE_LANE ->
       change_lane ctx'
       = mkChangeLaneStatus (Some CHANGE_LANE_SUCCESS) (Lanes_Id c) now) /\
      (code <> IN_CHANGE_LANE -> ctx' = ctx) /\
      status (change_lane ctx') <> Some IN_CHANGE_LANE.
Proof.
  intros flags now c ctx code Hreck Hst.
  exists (match code with
          | IN_CHANGE_LANE =>
              UpdateStatus now CHANGE_LANE_SUCCESS (Lanes_Id c) ctx
          | _ => ctx
          end).
  split.
  - unfold Apply. rewrite Hreck. unfold has_status, status_is. rewrite Hst.
    destruct code; reflexivity.
  - destruct code; (split; [|split]); try congruence;
      try (intros _; reflexivity); try discriminate.
Qed.

Lemma Apply_single_candidate_witness :
  exists ctx',
    Apply (sample_flags false) 9 [lane_B]
          (sample_context (Some IN_CHANGE_LANE) "A" 0)
    = (true, [lane_B], ctx') /\
    change_lane ctx' = mkChangeLaneStatus (Some CHANGE_LANE_SUCCESS) "B" 9.
Proof.
  destruct (Apply_single_candidate (sample_flags false) 9 lane_B
              (sample_context (Some IN_CHANGE_LANE) "A" 0) IN_CHANGE_LANE
              eq_refl eq_refl) as (ctx' & Happly & Hdone & _).
  exists ctx'. split; [exact Happly | exact (Hdone eq_refl)].
Defined.

(** X10. After a success.  With the reckless flag unset,
    [CHANGE_LANE_SUCCESS] on record, more than one candidate and a current
    candidate carrying a path id: while [now - timestamp] is strictly below
    the success freeze time every change-lane candidate is removed and the
    planning context is left as it was; once it is at least the freeze time
    the first change-lane candidate moves to the front and the status on
    record becomes [IN_CHANGE_LANE] with the current path id and the clock's
    reading. *)
Theorem Apply_after_success :
  forall flags now l ctx cur,
    FLAGS_reckless_change_lane flags = false ->
    status (change_lane ctx) = Some CHANGE_LANE_SUCCESS ->
    1 < List.length l ->
    current_candidate l = Some cur ->
    Lanes_Id cur <> "" ->
    ((now - timestamp (change_lane ctx)
      <? FLAGS_change_lane_success_freeze_time flags)%float = true ->
     Apply flags now l ctx = (true, Discarded l, ctx)) /\
    ((FLAGS_change_lane_success_freeze_time flags
      <=? now - timestamp (change_lane ctx))%float = true ->
     exists l' ctx',
       Apply flags now l ctx = (true, l', ctx') /\
       Prioritized l l' /\
       change_lane ctx'
       = mkChangeLaneStatus (Some IN_CHANGE_LANE) (Lanes_Id cur) now).
Proof.
  intros flags now l ctx cur Hreck Hst Hlen Hcur Hid.
  rewrite (Apply_offered _ _ _ _ _ _ Hreck Hst Hlen Hcur Hid).
  split; intros Hfreeze.
  - now rewrite Hfreeze, RemoveChangeLane_Discarded.
  - rewrite (leb_not_ltb _ _ Hfreeze).
    exists (PrioritizeChangeLane l),
           (UpdateStatus now IN_CHANGE_LANE (Lanes_Id cur) ctx).
    split; [reflexivity|].
    split; [apply PrioritizeChangeLane_Prioritized | reflexivity].
Qed.

Lemma Apply_after_success_witness :
  Apply (sample_flags false) 1 [lane_A; lane_B]
        (sample_context (Some CHANGE_LANE_SUCCESS) "A" 0)
  = (true, [lane_A], sample_context (Some CHANGE_LANE_SUCCESS) "A" 0) /\
  exists l' ctx',
    Apply (sample_flags false) 3 [lane_A; lane_B]
          (sample_context (Some CHANGE_LANE_SUCCESS) "A" 0)
    = (true, l', ctx') /\
    Prioritized [lane_A; lane_B] l' /\
    change_lane ctx' = mkChangeLaneStatus (Some IN_CHANGE_LANE) "A" 3.
Proof.
  split.
  - apply (Apply_after_success (sample_flags false) 1 [lane_A; lane_B]
             (sample_context (Some CHANGE_LANE_SUCCESS) "A" 0) lane_A);
      [reflexivity | reflexivity | simpl; lia | reflexivity | discriminate
      | reflexivity].
  - apply (Apply_after_success (sample_flags false) 3 [lane_A; lane_B]
             (sample_context (Some CHANGE_LANE_SUCCESS) "A" 0) lane_A);
      [reflexivity | reflexivity | simpl; lia | reflexivity | discriminate
      | reflexivity].
Defined.

(** X11. A retry takes two cycles.  With the reckless flag unset,
    [CHANGE_LANE_FAILED] on record, more than one candidate, a current
    candidate carrying a path id, and [now - timestamp] at least the failure
    freeze time: the first call succeeds, leaves the sequence as offered and
    puts [IN_CHANGE_LANE] with the current path id and the clock's reading
    on record; a second call with the same candidates, at any clock reading,
    succeeds, moves the first change-lane candidate to the front and leaves
    the planning context of the first call as it is. *)
Theorem Apply_retry_in_two_cycles :
  forall flags now now' l ctx cur,
    FLAGS_reckless_change_lane flags = false ->
    status (change_lane ctx) = Some CHANGE_LANE_FAILED ->
    1 < List.length l ->
    current_candidate l = Some cur ->
    Lanes_Id cur <> "" ->
    (FLAGS_change_lane_fail_freeze_time flags
     <=? now - timestamp (change_lane ctx))%float = true ->
    exists ctx1 l2,
      Apply flags now l ctx = (true, l, ctx1) /\
      Apply flags now' l ctx1 = (true, l2, ctx1) /\
      Prioritized l l2 /\
      change_lane ctx1
      = mkChangeLaneStatus (Some IN_CHANGE_LANE) (Lanes_Id cur) now.
Proof.
  intros flags now now' l ctx cur Hreck Hst Hlen Hcur Hid Hfreeze.
  exists (UpdateStatus now IN_CHANGE_LANE (Lanes_Id cur) ctx),
         (PrioritizeChangeLane l).
  split; [|split; [|split]].
  - rewrite (Apply_offered _ _ _ _ _ _ Hreck Hst Hlen Hcur Hid).
    now rewrite (leb_not_ltb _ _ Hfreeze).
  - rewrite (Apply_offered flags now' l
               (UpdateStatus now IN_CHANGE_LANE (Lanes_Id cur) ctx)
               IN_CHANGE_LANE cur Hreck eq_refl Hlen Hcur Hid).
    cbn [UpdateStatus change_lane path_id]. now rewrite String.eqb_refl.
  - apply PrioritizeChangeLane_Prioritized.
  - reflexivity.
Qed.

Lemma Apply_retry_in_two_cycles_witness :
  exists ctx1 l2,
    Apply (sample_flags false) 2.5 [lane_A; lane_B]
          (sample_context (Some CHANGE_LANE_FAILED) "A" 0)
    = (true, [lane_A; lane_B], ctx1) /\
    Apply (sample_flags false) 2.75 [lane_A; lane_B] ctx1 = (true, l2, ctx1) /\
    Prioritized [lane_A; lane_B] l2 /\
    change_lane ctx1 = mkChangeLaneStatus (Some IN_CHANGE_LANE) "A" 2.5.
Proof.
  apply (Apply_retry_in_two_cycles (sample_flags false) 2.5 2.75
           [lane_A; lane_B]
           (sample_context (Some CHANGE_LANE_FAILED) "A" 0) lane_A);
    [reflexivity | reflexivity | simpl; lia | reflexivity | discriminate
    | reflexivity].
Defined.

(** ** More on comparisons, [fmin] and [fmax] *)

Lemma is_nan_is_number :
  forall x, is_nan x = false <-> is_number x.
Proof.
  intros x. unfold is_nan, is_number. rewrite eqb_spec. unfold SFeqb.
  pose proof (SFcompare_Eq (Prim2SF x) (Prim2SF x)) as HEq.
  pose proof (SFcompare_None (Prim2SF x) (Prim2SF x)) as HNone.
  destruct (SFcompare (Prim2SF x) (Prim2SF x)) as [[ | | ]|] eqn:E; simpl;
    split; intros H; try reflexivity; try discriminate.
  - apply HEq. reflexivity.
  - exfalso. assert (Some Lt = Some Eq) by (apply HEq; auto). discriminate.
  - exfalso. assert (Some Gt = Some Eq) by (apply HEq; auto). discriminate.
  - exfalso. destruct (proj1 HNone eq_refl); contradiction.
Qed.

Lemma leb_refl :
  forall x, is_number x -> (x <=? x)%float = true.
Proof.
  intros x Hx. apply leb_key. repeat split; try assumption.
  destruct (float_key x) as [[a b] c]. simpl. lia.
Qed.

Lemma ltb_leb :
  forall x y, (x <? y)%float = true -> (x <=? y)%float = true.
Proof.
  intros x y H. apply ltb_key in H. destruct H as (Hx & Hy & H).
  apply leb_key. repeat split; try assumption.
  destruct (float_key x) as [[a b] c], (float_key y) as [[a' b'] c'].
  simpl in *. lia.
Qed.

Lemma leb_trans :
  forall x y z,
    (x <=? y)%float = true -> (y <=? z)%float = true -> (x <=? z)%float = true.
Proof.
  intros x y z Hxy Hyz. apply leb_key in Hxy, Hyz. apply leb_key.
  destruct Hxy as (Hx & _ & Hxy), Hyz as (_ & Hz & Hyz).
  repeat split; try assumption.
  destruct (float_key x) as [[a b] c], (float_key y) as [[a' b'] c'],
           (float_key z) as [[a'' b''] c''].
  simpl in *. lia.
Qed.

Lemma leb_ltb_trans :
  forall x y z,
    (x <=? y)%float = true -> (y <? z)%float = true -> (x <? z)%float = true.
Proof.
  intros x y z Hxy Hyz. apply leb_key in Hxy. apply ltb_key in Hyz.
  apply ltb_key.
  destruct Hxy as (Hx & _ & Hxy), Hyz as (_ & Hz & Hyz).
  repeat split; try assumption.
  destruct (float_key x) as [[a b] c], (float_key y) as [[a' b'] c'],
           (float_key z) as [[a'' b''] c''].
  simpl in *. lia.
Qed.

Lemma leb_is_number :
  forall x y, (x <=? y)%float = true -> is_number x /\ is_number y.
Proof. intros x y H. apply leb_key in H. tauto. Qed.

(** [fmax] of a number is a number at least that number, and at least the
    other argument when that is a number too. *)
Lemma fmax_l :
  forall x y,
    is_number x ->
    is_number (fmax x y) /\ (x <=? fmax x y)%float = true /\
    (is_number y -> (y <=? fmax x y)%float = true).
Proof.
  intros x y Hx. unfold fmax.
  rewrite (proj2 (is_nan_is_number x) Hx).
  destruct (is_nan y) eqn:Hy.
  - repeat split; try assumption; [now apply leb_refl|].
    intros Hy'. apply is_nan_is_number in Hy'. congruence.
  - apply is_nan_is_number in Hy.
    destruct (x <? y)%float eqn:Hlt.
    + repeat split; try assumption; [now apply ltb_leb | intros _; now apply leb_refl].
    + repeat split; try assumption; [now apply leb_refl|].
      intros _. now apply not_ltb_leb.
Qed.

Lemma fmin_l :
  forall x y,
    is_number x ->
    is_number (fmin x y) /\ (fmin x y <=? x)%float = true /\
    (is_number y -> (fmin x y <=? y)%float = true).
Proof.
  intros x y Hx. unfold fmin.
  rewrite (proj2 (is_nan_is_number x) Hx).
  destruct (is_nan y) eqn:Hy.
  - repeat split; try assumption; [now apply leb_refl|].
    intros Hy'. apply is_nan_is_number in Hy'. congruence.
  - apply is_nan_is_number in Hy.
    destruct (y <? x)%float eqn:Hlt.
    + repeat split; try assumption; [now apply ltb_leb | intros _; now apply leb_refl].
    + repeat split; try assumption; [now apply leb_refl|].
      intros _. now apply not_ltb_leb.
Qed.

(** The filter with memory is at least as strict as the filter without:
    what blocks afresh keeps blocking. *)
Lemma HysteresisFilter_latch :
  forall gap safe buffer,
    (0 <=? buffer)%float = true ->
    (buffer <? infinity)%float = true ->
    HysteresisFilter gap safe buffer false = true ->
    HysteresisFilter gap safe buffer true = true.
Proof.
  intros gap safe buffer Hnn Hfin H. unfold HysteresisFilter in *.
  destruct (Prim2SF safe) eqn:Hsafe;
    try (apply (ltb_leb_trans _ _ _ H), sub_le_add; try assumption;
         unfold is_number; rewrite Hsafe; discriminate).
  destruct (nan_thresholds safe buffer gap Hsafe) as (_ & H2 & _). congruence.
Qed.

(** ** More of the clearance scan *)

Section MoreClearanceProperties.

Variable NormalizeAngle : float -> float.

(** The flag of an obstacle plays no part in whether it is passed over, and
    enters [blocks] only as the memory of the two filters. *)
Lemma skipped_flag :
  forall info b o, skipped info (SetLaneChangeBlocking b o) = skipped info o.
Proof. reflexivity. Qed.

Lemma blocks_flag :
  forall info b o,
    blocks NormalizeAngle info (SetLaneChangeBlocking b o) =
    HysteresisFilter
      (ego_start_s info - box_end_s (sl_box info o))%float
      (kBackwardSafeDistance NormalizeAngle info o) kDistanceBuffer b
    && HysteresisFilter
         (box_start_s (sl_box info o) - ego_end_s info)%float
         (kForwardSafeDistance NormalizeAngle info o) kDistanceBuffer b.
Proof. reflexivity. Qed.

Lemma blocks_own_flag :
  forall info o,
    blocks NormalizeAngle info (SetLaneChangeBlocking (IsLaneChangeBlocking o) o)
    = blocks NormalizeAngle info o.
Proof. reflexivity. Qed.

Lemma blocks_latch :
  forall info o,
    blocks NormalizeAngle info (SetLaneChangeBlocking false o) = true ->
    blocks NormalizeAngle info (SetLaneChangeBlocking true o) = true.
Proof.
  intros info o. rewrite !blocks_flag. intros H.
  apply andb_prop in H. destruct H as [H1 H2].
  apply andb_true_intro.
  split; apply HysteresisFilter_latch; try assumption; reflexivity.
Qed.

(** Marking an obstacle with the verdict just reached does not change the
    verdict. *)
Lemma blocks_after_true :
  forall info o,
    blocks NormalizeAngle info o = true ->
    blocks NormalizeAngle info (SetLaneChangeBlocking true o) = true.
Proof.
  intros info o H. rewrite <- blocks_own_flag in H.
  destruct (IsLaneChangeBlocking o); [assumption | now apply blocks_latch].
Qed.

Lemma blocks_after_false :
  forall info o,
    blocks NormalizeAngle info o = false ->
    blocks NormalizeAngle info (SetLaneChangeBlocking false o) = false.
Proof.
  intros info o H. rewrite <- blocks_own_flag in H.
  destruct (IsLaneChangeBlocking o); [|assumption].
  destruct (blocks NormalizeAngle info (SetLaneChangeBlocking false o)) eqn:E;
    [|reflexivity].
  apply blocks_latch in E. congruence.
Qed.

Lemma scan_outcome_only_flags :
  forall info todo,
    map without_flag (snd (fst (scan_outcome NormalizeAngle info todo)))
    = map without_flag todo.
Proof.
  intros info todo. induction todo as [|o rest IH]; [reflexivity|].
  simpl. destruct (scan_outcome NormalizeAngle info rest) as [[ok obs] w].
  simpl in IH.
  destruct (skipped info o); [|destruct (blocks NormalizeAngle info o)];
    simpl; try rewrite IH; reflexivity.
Qed.

Lemma without_flag_Id :
  forall l l', map without_flag l' = map without_flag l -> map Id l' = map Id l.
Proof.
  intros l l' H.
  assert (E : forall k, map Id k = map Id (map without_flag k)).
  { intros k. rewrite map_map. reflexivity. }
  rewrite (E l), (E l'). now rewrite H.
Qed.

Lemma scan_outcome_verdict :
  forall info todo,
    (fst (fst (scan_outcome NormalizeAngle info todo)) = true <->
     no_blocker NormalizeAngle info todo) /\
    (fst (fst (scan_outcome NormalizeAngle info todo)) = false <->
     has_blocker NormalizeAngle info todo).
Proof.
  intros info todo. unfold no_blocker, has_blocker.
  induction todo as [|o rest [IHt IHf]]; simpl.
  - repeat split; try constructor; try discriminate.
    intros H. inversion H.
  - destruct (scan_outcome NormalizeAngle info rest) as [[ok obs] w].
    simpl in IHt, IHf.
    destruct (skipped info o) eqn:Hs; simpl.
    + split; split; intros H.
      * constructor; [congruence | now apply IHt].
      * inversion H; subst. now apply IHt.
      * apply Exists_cons_tl. now apply IHf.
      * inversion H as [? ? [E _] | ? ? H']; subst; [congruence | now apply IHf].
    + destruct (blocks NormalizeAngle info o) eqn:Hb; simpl.
      * split; split; intros H; try discriminate; try reflexivity.
        -- inversion H as [|? ? H1 _]; subst. specialize (H1 Hs). congruence.
        -- apply Exists_cons_hd. auto.
      * split; split; intros H.
        -- constructor; [auto | now apply IHt].
        -- inversion H; subst. now apply IHt.
        -- apply Exists_cons_tl. now apply IHf.
        -- inversion H as [? ? [_ E] | ? ? H']; subst; [congruence | now apply IHf].
Qed.

(** The writes of a scan, oldest first: a clearing write for each evaluated
    obstacle before the first blocker, then the blocking write. *)
Lemma scan_outcome_journal_clear :
  forall info todo,
    no_blocker NormalizeAngle info todo ->
    snd (scan_outcome NormalizeAngle info todo)
    = map (fun o => (Id o, false))
          (filter (fun o => negb (skipped info o)) todo).
Proof.
  intros info todo H. induction H as [|o rest Ho _ IH]; [reflexivity|].
  simpl. destruct (scan_outcome NormalizeAngle info rest) as [[ok obs] w].
  simpl in IH.
  destruct (skipped info o) eqn:Hs; simpl; [assumption|].
  rewrite (Ho eq_refl). simpl. now rewrite IH.
Qed.

Lemma scan_outcome_journal_blocked :
  forall info pre o post,
    no_blocker NormalizeAngle info pre ->
    skipped info o = false ->
    blocks NormalizeAngle info o = true ->
    snd (scan_outcome NormalizeAngle info (pre ++ o :: post))
    = map (fun o' => (Id o', false))
          (filter (fun o' => negb (skipped info o')) pre)
      ++ [(Id o, true)].
Proof.
  intros info pre o post H Hs Hb. induction H as [|p pre Hp _ IH]; simpl.
  - now rewrite Hs, Hb.
  - destruct (scan_outcome NormalizeAngle info (pre ++ o :: post)) as [[ok obs] w].
    simpl in IH.
    destruct (skipped info p) eqn:Hsp; simpl; [assumption|].
    rewrite (Hp eq_refl). simpl. now rewrite IH.
Qed.

Lemma scan_outcome_idempotent :
  forall info todo,
    fst (scan_outcome NormalizeAngle info
           (snd (fst (scan_outcome NormalizeAngle info todo))))
    = fst (scan_outcome NormalizeAngle info todo).
Proof.
  intros info todo. induction todo as [|o rest IH]; [reflexivity|].
  simpl.
  destruct (scan_outcome NormalizeAngle info rest) as [[ok obs] w] eqn:E.
  simpl in IH.
  destruct (skipped info o) eqn:Hs.
  - simpl. rewrite Hs.
    destruct (scan_outcome NormalizeAngle info obs) as [[ok' obs'] w'].
    simpl in *. now injection IH as -> ->.
  - destruct (blocks NormalizeAngle info o) eqn:Hb.
    + simpl. rewrite skipped_flag, Hs, (blocks_after_true _ _ Hb). reflexivity.
    + simpl. rewrite skipped_flag, Hs, (blocks_after_false _ _ Hb).
      destruct (scan_outcome NormalizeAngle info obs) as [[ok' obs'] w'].
      simpl in *. now injection IH as -> ->.
Qed.

(** The scan reads the candidate's registry only through the obstacles it
    is given. *)
Lemma scan_outcome_with_path_decision :
  forall info pd todo,
    scan_outcome NormalizeAngle (with_path_decision info pd) todo
    = scan_outcome NormalizeAngle info todo.
Proof.
  intros info pd todo. induction todo as [|o rest IH]; [reflexivity|].
  simpl. rewrite IH.
  change (skipped (with_path_decision info pd) o) with (skipped info o).
  change (blocks NormalizeAngle (with_path_decision info pd) o)
    with (blocks NormalizeAngle info o).
  reflexivity.
Qed.

Lemma IsClearToChangeLane_keeps_ids :
  forall info,
    NoDup (map Id (obstacles (path_decision info))) ->
    map Id (obstacles (snd (IsClearToChangeLane NormalizeAngle info)))
    = map Id (obstacles (path_decision info)).
Proof.
  intros info Hnd. apply without_flag_Id.
  rewrite (IsClearToChangeLane_outcome NormalizeAngle info Hnd).
  pose proof (scan_outcome_only_flags info (obstacles (path_decision info))) as H.
  destruct (scan_outcome NormalizeAngle info (obstacles (path_decision info)))
    as [[ok obs] w].
  exact H.
Qed.

(** X12. A scan changes blocking flags and nothing else: with one obstacle
    per id, the registry [IsClearToChangeLane] leaves holds the same
    obstacles in the same order, equal to the ones before in every field but
    the flag. *)
Theorem IsClearToChangeLane_only_flags :
  forall info,
    NoDup (map Id (obstacles (path_decision info))) ->
    map without_flag
        (obstacles (snd (IsClearToChangeLane NormalizeAngle info)))
    = map without_flag (obstacles (path_decision info)).
Proof.
  intros info Hnd. rewrite (IsClearToChangeLane_outcome NormalizeAngle info Hnd).
  pose proof (scan_outcome_only_flags info (obstacles (path_decision info))) as H.
  destruct (scan_outcome NormalizeAngle info (obstacles (path_decision info)))
    as [[ok obs] w].
  exact H.
Qed.

(** X13. With one obstacle per id, [IsClearToChangeLane] returns [false]
    exactly when some obstacle that is not passed over blocks, and [true]
    exactly when none does. *)
Theorem IsClearToChangeLane_verdict :
  forall info,
    NoDup (map Id (obstacles (path_decision info))) ->
    (fst (IsClearToChangeLane NormalizeAngle info) = true <->
     no_blocker NormalizeAngle info (obstacles (path_decision info))) /\
    (fst (IsClearToChangeLane NormalizeAngle info) = false <->
     has_blocker NormalizeAngle info (obstacles (path_decision info))).
Proof.
  intros info Hnd. rewrite (IsClearToChangeLane_outcome NormalizeAngle info Hnd).
  pose proof (scan_outcome_verdict info (obstacles (path_decision info))) as H.
  destruct (scan_outcome NormalizeAngle info (obstacles (path_decision info)))
    as [[ok obs] w].
  exact H.
Qed.

(** X14. The writes of one scan, newest first.  With one obstacle per id
    and no blocker, the flags written are those of the evaluated obstacles,
    each cleared once, in scan order; obstacles passed over are not written.
    With a first blocker, the newest write sets its flag, the writes before
    it clear the evaluated obstacles in front of it, and nothing behind it
    is written. *)
Theorem IsClearToChangeLane_writes :
  forall info,
    NoDup (map Id (obstacles (path_decision info))) ->
    (no_blocker NormalizeAngle info (obstacles (path_decision info)) ->
     blocking_writes (snd (IsClearToChangeLane NormalizeAngle info))
     = rev (map (fun o => (Id o, false))
                (filter (fun o => negb (skipped info o))
                        (obstacles (path_decision info))))
       ++ blocking_writes (path_decision info)) /\
    (forall pre o post,
        obstacles (path_decision info) = pre ++ o :: post ->
        no_blocker NormalizeAngle info pre ->
        skipped info o = false ->
        blocks NormalizeAngle info o = true ->
        blocking_writes (snd (IsClearToChangeLane NormalizeAngle info))
        = (Id o, true)
          :: rev (map (fun o' => (Id o', false))
                      (filter (fun o' => negb (skipped info o')) pre))
          ++ blocking_writes (path_decision info)).
Proof.
  intros info Hnd. rewrite (IsClearToChangeLane_outcome NormalizeAngle info Hnd).
  split.
  - intros Hall.
    pose proof (scan_outcome_journal_clear info _ Hall) as H.
    destruct (scan_outcome NormalizeAngle info (obstacles (path_decision info)))
      as [[ok obs] w].
    simpl in *. now rewrite H.
  - intros pre o post Hobs Hpre Hs Hb. rewrite Hobs.
    pose proof (scan_outcome_journal_blocked info pre o post Hpre Hs Hb) as H.
    destruct (scan_outcome NormalizeAngle info (pre ++ o :: post)) as [[ok obs] w].
    simpl in *. rewrite H, rev_app_distr. reflexivity.
Qed.

(** X15. The flags a scan leaves are a fixed point of the scan.  With one
    obstacle per id, scanning the same scene again, with the flags the first
    scan has left as memory, returns the same verdict and leaves every
    obstacle as the first scan left it: a clear scene stays clear and a
    blocked scene stays blocked by the same obstacle. *)
Theorem IsClearToChangeLane_idempotent :
  forall info,
    NoDup (map Id (obstacles (path_decision info))) ->
    let first := IsClearToChangeLane NormalizeAngle info in
    let again :=
      IsClearToChangeLane NormalizeAngle (with_path_decision info (snd first)) in
    fst again = fst first /\
    obstacles (snd again) = obstacles (snd first).
Proof.
  intros info Hnd first again. subst first again.
  assert (Hnd' : NoDup (map Id (obstacles
                   (snd (IsClearToChangeLane NormalizeAngle info))))).
  { now rewrite (IsClearToChangeLane_keeps_ids info Hnd). }
  rewrite (IsClearToChangeLane_outcome NormalizeAngle
             (with_path_decision info _) Hnd').
  cbn [with_path_decision path_decision].
  rewrite (IsClearToChangeLane_outcome NormalizeAngle info Hnd).
  pose proof (scan_outcome_idempotent info (obstacles (path_decision info))) as H.
  destruct (scan_outcome NormalizeAngle info (obstacles (path_decision info)))
    as [[ok obs] w].
  cbn [snd fst obstacles] in *.
  rewrite scan_outcome_with_path_decision.
  destruct (scan_outcome NormalizeAngle info obs) as [[ok' obs'] w'].
  simpl in *. now injection H as -> ->.
Qed.

End MoreClearanceProperties.

Lemma IsClearToChangeLane_only_flags_witness :
  map without_flag
      (obstacles (snd (IsClearToChangeLane sample_angle sample_scene)))
  = map without_flag (obstacles (path_decision sample_scene)).
Proof.
  apply (IsClearToChangeLane_only_flags sample_angle sample_scene).
  repeat constructor; simpl; intuition discriminate.
Defined.

Lemma IsClearToChangeLane_verdict_witness :
  (fst (IsClearToChangeLane sample_angle sample_scene) = true <->
   no_blocker sample_angle sample_scene (obstacles (path_decision sample_scene))) /\
  (fst (IsClearToChangeLane sample_angle sample_scene) = false <->
   has_blocker sample_angle sample_scene (obstacles (path_decision sample_scene))).
Proof.
  apply (IsClearToChangeLane_verdict sample_angle sample_scene).
  repeat constructor; simpl; intuition discriminate.
Defined.

Lemma IsClearToChangeLane_writes_witness :
  blocking_writes (snd (IsClearToChangeLane sample_angle sample_scene))
  = ("near", true) :: rev [("far", false)] ++ [].
Proof.
  apply (proj2 (IsClearToChangeLane_writes sample_angle sample_scene
                  ltac:(repeat constructor; simpl; intuition discriminate))
           [obstacle_parked; obstacle_far] obstacle_near [obstacle_late]).
  - reflexivity.
  - repeat constructor; vm_compute; intros; congruence.
  - vm_compute. reflexivity.
  - vm_compute. reflexivity.
Defined.

Lemma IsClearToChangeLane_idempotent_witness :
  fst (IsClearToChangeLane sample_angle
         (with_path_decision sample_scene
            (snd (IsClearToChangeLane sample_angle sample_scene))))
  = fst (IsClearToChangeLane sample_angle sample_scene) /\
  obstacles (snd (IsClearToChangeLane sample_angle
                    (with_path_decision sample_scene
                       (snd (IsClearToChangeLane sample_angle sample_scene)))))
  = obstacles (snd (IsClearToChangeLane sample_angle sample_scene)).
Proof.
  apply (IsClearToChangeLane_idempotent sample_angle sample_scene).
  repeat constructor; simpl; intuition discriminate.
Defined.

(** ** Thresholds and envelopes *)

(** X16. The filter is monotone.  A gap at most a gap judged unsafe is
    judged unsafe too, with the same safe distance, buffer and memory; and
    with a finite non-negative buffer, a gap judged unsafe without memory of
    blocking is judged unsafe with it. *)
Theorem HysteresisFilter_monotone :
  forall gap gap' safe buffer,
    (forall was_blocking,
        (gap' <=? gap)%float = true ->
        HysteresisFilter gap safe buffer was_blocking = true ->
        HysteresisFilter gap' safe buffer was_blocking = true) /\
    ((0 <=? buffer)%float = true ->
     (buffer <? infinity)%float = true ->
     HysteresisFilter gap safe buffer false = true ->
     HysteresisFilter gap safe buffer true = true).
Proof.
  intros gap gap' safe buffer. split.
  - intros [|] Hle H; unfold HysteresisFilter in *;
      exact (leb_ltb_trans _ _ _ Hle H).
  - apply HysteresisFilter_latch.
Qed.

Lemma HysteresisFilter_monotone_witness :
  HysteresisFilter 7 8 0.5 true = true.
Proof.
  apply (proj2 (HysteresisFilter_monotone 7 7 8 0.5)); reflexivity.
Defined.

(** The minimum safe distances are floors of the safe distances. *)
Lemma safe_distance_floors_hold :
  forall NormalizeAngle info o,
    (6 <=? kForwardSafeDistance NormalizeAngle info o)%float = true /\
    (same_direction NormalizeAngle info o = false ->
     (50 <=? kForwardSafeDistance NormalizeAngle info o)%float = true) /\
    (1 <=? kBackwardSafeDistance NormalizeAngle info o)%float = true /\
    (same_direction NormalizeAngle info o = true ->
     (8 <=? kBackwardSafeDistance NormalizeAngle info o)%float = true).
Proof.
  intros NormalizeAngle info o.
  assert (N6 : is_number kForwardMinSafeDistanceOnSameDirection)
    by (unfold is_number; vm_compute; discriminate).
  assert (N50 : is_number kForwardMinSafeDistanceOnOppositeDirection)
    by (unfold is_number; vm_compute; discriminate).
  assert (N8 : is_number kBackwardMinSafeDistanceOnSameDirection)
    by (unfold is_number; vm_compute; discriminate).
  unfold kForwardSafeDistance, kBackwardSafeDistance.
  destruct (same_direction NormalizeAngle info o).
  - destruct (fmax_l _ ((ego_v info - speed o) * kSafeTimeOnSameDirection)%float N6)
      as (_ & H6 & _).
    destruct (fmax_l _ ((speed o - ego_v info) * kSafeTimeOnSameDirection)%float N8)
      as (_ & H8 & _).
    split; [exact H6|]. split; [intros H; discriminate H|].
    split; [|intros _; exact H8].
    apply leb_trans with (y := 8%float); [reflexivity | exact H8].
  - destruct (fmax_l _ ((ego_v info + speed o) * kSafeTimeOnOppositeDirection)%float
                N50) as (_ & H50 & _).
    split; [|split; [intros _; exact H50|split; [reflexivity|]]].
    + apply leb_trans with (y := 50%float); [reflexivity | exact H50].
    + intros H; discriminate H.
Qed.

(** X17. Floors of the safety distances.  Whatever the speeds and headings
    are, NaN included, the forward safety distance is a number of at least
    6, and at least 50 for an obstacle judged to move in the opposite
    direction; the backward safety distance is a number of at least 1, and
    at least 8 for an obstacle judged to move in the same direction. *)
Theorem safe_distance_floors :
  forall NormalizeAngle info o,
    (6 <=? kForwardSafeDistance NormalizeAngle info o)%float = true /\
    (same_direction NormalizeAngle info o = false ->
     (50 <=? kForwardSafeDistance NormalizeAngle info o)%float = true) /\
    (1 <=? kBackwardSafeDistance NormalizeAngle info o)%float = true /\
    (same_direction NormalizeAngle info o = true ->
     (8 <=? kBackwardSafeDistance NormalizeAngle info o)%float = true).
Proof. exact safe_distance_floors_hold. Qed.

(** The box grown over a list of points: it stays made of numbers, it only
    grows, and it holds every point whose coordinate is a number. *)
Lemma fold_extend_box :
  forall info points box,
    is_number (box_start_s box) -> is_number (box_end_s box) ->
    is_number (box_start_l box) -> is_number (box_end_l box) ->
    let box' := fold_left (extend_box info) points box in
    (box_start_s box' <=? box_start_s box)%float = true /\
    (box_end_s box <=? box_end_s box')%float = true /\
    (box_start_l box' <=? box_start_l box)%float = true /\
    (box_end_l box <=? box_end_l box')%float = true /\
    forall p, In p points ->
      (is_number (sl_s (XYToSL info (fst p) (snd p))) ->
       (box_start_s box' <=? sl_s (XYToSL info (fst p) (snd p)))%float = true /\
       (sl_s (XYToSL info (fst p) (snd p)) <=? box_end_s box')%float = true) /\
      (is_number (sl_l (XYToSL info (fst p) (snd p))) ->
       (box_start_l box' <=? sl_l (XYToSL info (fst p) (snd p)))%float = true /\
       (sl_l (XYToSL info (fst p) (snd p)) <=? box_end_l box')%float = true).
Proof.
  intros info points. induction points as [|q rest IH]; intros box N1 N2 N3 N4.
  - simpl. repeat (split; [now apply leb_refl|]). intros p [].
  - simpl fold_left.
    set (sl := XYToSL info (fst q) (snd q)).
    destruct (fmin_l (box_start_s box) (sl_s sl) N1) as (M1 & L1 & P1).
    destruct (fmax_l (box_end_s box) (sl_s sl) N2) as (M2 & L2 & P2).
    destruct (fmin_l (box_start_l box) (sl_l sl) N3) as (M3 & L3 & P3).
    destruct (fmax_l (box_end_l box) (sl_l sl) N4) as (M4 & L4 & P4).
    specialize (IH (extend_box info box q) M1 M2 M3 M4).
    cbv zeta in IH. destruct IH as (I1 & I2 & I3 & I4 & IHp).
    cbn [extend_box box_start_s box_end_s box_start_l box_end_l] in I1, I2, I3, I4.
    fold sl in I1, I2, I3, I4.
    cbv zeta.
    split; [exact (leb_trans _ _ _ I1 L1)|].
    split; [exact (leb_trans _ _ _ L2 I2)|].
    split; [exact (leb_trans _ _ _ I3 L3)|].
    split; [exact (leb_trans _ _ _ L4 I4)|].
    intros p [<- | Hin]; [|now apply IHp].
    fold sl. split; intros Hn; split.
    + exact (leb_trans _ _ _ I1 (P1 Hn)).
    + exact (leb_trans _ _ _ (P2 Hn) I2).
    + exact (leb_trans _ _ _ I3 (P3 Hn)).
    + exact (leb_trans _ _ _ (P4 Hn) I4).
Qed.

(** X18. The bounding box holds the polygon.  For every vertex of an
    obstacle's perception polygon whose projected [s] is a number, that [s]
    lies between [start_s] and [end_s] of the box the scan computes, and
    likewise for [l]; a vertex projected to NaN is ignored. *)
Theorem sl_box_holds_polygon :
  forall info o p,
    In p (PerceptionPolygon o) ->
    (is_number (sl_s (XYToSL info (fst p) (snd p))) ->
     (box_start_s (sl_box info o) <=? sl_s (XYToSL info (fst p) (snd p)))%float
     = true /\
     (sl_s (XYToSL info (fst p) (snd p)) <=? box_end_s (sl_box info o))%float
     = true) /\
    (is_number (sl_l (XYToSL info (fst p) (snd p))) ->
     (box_start_l (sl_box info o) <=? sl_l (XYToSL info (fst p) (snd p)))%float
     = true /\
     (sl_l (XYToSL info (fst p) (snd p)) <=? box_end_l (sl_box info o))%float
     = true).
Proof.
  intros info o p Hin. unfold sl_box.
  apply (fold_extend_box info (PerceptionPolygon o)
           (mkSLBox DBL_MAX (- DBL_MAX) DBL_MAX (- DBL_MAX)));
    try (unfold is_number; vm_compute; discriminate).
  assumption.
Qed.

Lemma sl_box_holds_polygon_witness :
  ((box_start_s (sl_box sample_scene obstacle_near) <=? 3)%float = true /\
   (3 <=? box_end_s (sl_box sample_scene obstacle_near))%float = true) /\
  ((box_start_l (sl_box sample_scene obstacle_near) <=? 1)%float = true /\
   (1 <=? box_end_l (sl_box sample_scene obstacle_near))%float = true).
Proof.
  destruct (sl_box_holds_polygon sample_scene obstacle_near (3%float, 1%float))
    as [Hs Hl].
  - simpl. tauto.
  - split; [apply Hs | apply Hl]; unfold is_number; vm_compute; discriminate.
Defined.

(** ** Sums and differences keep the order

    A valid finite number is the rounding of its value, sums and
    differences are the rounding of the exact result, and rounding keeps
    the order: adding or subtracting one finite number is monotone. *)

Section MoreRounding.

Local Open Scope Z_scope.

Variables prec emax : Z.
Hypothesis Hprec : 0 < prec.

Lemma rne_scale :
  forall M K k, 0 <= K -> 0 <= k -> rne (M * 2 ^ k) (K + k) = rne M K.
Proof.
  intros M K k HK Hk. unfold rne.
  assert (Hpk : 0 < 2 ^ k) by (apply Z.pow_pos_nonneg; lia).
  assert (HpK : 0 < 2 ^ K) by (apply Z.pow_pos_nonneg; lia).
  rewrite Z.pow_add_r by lia.
  rewrite Z.div_mul_cancel_r by lia.
  rewrite Z.mul_mod_distr_r by lia.
  replace (2 * (M mod 2 ^ K * 2 ^ k) ?= 2 ^ K * 2 ^ k)
    with (2 * (M mod 2 ^ K) ?= 2 ^ K); [reflexivity|].
  destruct (Z.compare_spec (2 * (M mod 2 ^ K)) (2 ^ K));
    symmetry; [apply Z.compare_eq_iff | apply Z.compare_lt_iff
              | apply Z.compare_gt_iff]; nia.
Qed.

Lemma round_pos_scale :
  forall M e k,
    0 < M -> 0 <= k -> SpecFloat.emin prec emax <= e - k ->
    round_pos prec emax (M * 2 ^ k) (e - k) = round_pos prec emax M e.
Proof.
  intros M e k HM Hk He. unfold round_pos.
  rewrite (Zdigits2_mul_pow2 M k HM Hk).
  pose proof (Zdigits2_pos M HM) as Hd.
  set (d := Zdigits2 M) in *.
  replace (d + k + (e - k)) with (d + e) by lia.
  assert (Hpk : 0 < 2 ^ k) by (apply Z.pow_pos_nonneg; lia).
  destruct (Z.leb_spec (d + k) prec) as [H1 | H1];
    destruct (Z.leb_spec d prec) as [H2 | H2]; try lia.
  - f_equal.
    rewrite <- Z.mul_assoc, <- Z.pow_add_r
      by (unfold SpecFloat.fexp, SpecFloat.emin in *; lia).
    f_equal. f_equal. lia.
  - (* shifted past the precision: the bits shifted out are zeros *)
    assert (HE : SpecFloat.fexp prec emax (d + e) = d + e - prec)
      by (unfold SpecFloat.fexp, SpecFloat.emin in *; lia).
    rewrite HE.
    replace (d + k - prec) with (0 + (d + k - prec)) by lia.
    replace (M * 2 ^ k) with ((M * 2 ^ (prec - d)) * 2 ^ (d + k - prec)).
    2:{ rewrite <- Z.mul_assoc, <- Z.pow_add_r by lia. f_equal. f_equal. lia. }
    rewrite rne_scale by lia.
    assert (Hr : forall x, rne x 0 = x).
    { intros x. unfold rne. simpl (2 ^ 0). rewrite Z.mod_1_r, Z.div_1_r.
      reflexivity. }
    rewrite Hr.
    assert (Hdig : Zdigits2 (M * 2 ^ (prec - d)) = prec).
    { rewrite Zdigits2_mul_pow2 by lia. fold d. lia. }
    pose proof (Zdigits2_bounds (M * 2 ^ (prec - d))
                  ltac:(pose proof (Z.pow_pos_nonneg 2 (prec - d)); nia)) as Hb.
    rewrite Hdig in Hb.
    destruct (Z.eqb_spec (M * 2 ^ (prec - d)) (2 ^ prec)); [lia|].
    replace (e - (d + e - prec)) with (prec - d) by lia. reflexivity.
  - replace (d + k - prec) with ((d - prec) + k) by lia.
    rewrite rne_scale by lia.
    destruct (rne M (d - prec) =? 2 ^ prec); f_equal; lia.
Qed.


Lemma binary_normalize_scale :
  forall M e k,
    0 <= k -> SpecFloat.emin prec emax <= e - k ->
    binary_normalize prec emax (M * 2 ^ k) (e - k) false
    = binary_normalize prec emax M e false.
Proof.
  intros M e k Hk He.
  assert (Hpk : 0 < 2 ^ k) by (apply Z.pow_pos_nonneg; lia).
  destruct M as [|m|m].
  - reflexivity.
  - destruct (Zpos m * 2 ^ k) as [|m'|m'] eqn:E; try nia.
    unfold binary_normalize.
    rewrite !(binary_round_spec prec emax Hprec) by lia.
    rewrite <- E. now rewrite round_pos_scale by lia.
  - destruct (Zneg m * 2 ^ k) as [|m'|m'] eqn:E; try nia.
    unfold binary_normalize.
    rewrite !(binary_round_spec prec emax Hprec) by lia.
    replace (Zpos m') with (Zpos m * 2 ^ k) by lia.
    now rewrite round_pos_scale by lia.
Qed.

(** Rounding a valid number gives the number back. *)
Lemma binary_normalize_valid :
  forall s m e,
    SpecFloat.valid_binary prec emax (S754_finite s m e) = true ->
    binary_normalize prec emax (cond_Zopp s (Zpos m)) e false
    = S754_finite s m e.
Proof.
  intros s m e V.
  pose proof (valid_binary_emin prec emax _ _ _ V) as He.
  unfold SpecFloat.valid_binary, bounded, canonical_mantissa in V.
  apply andb_prop in V. destruct V as [Hc Hb].
  apply Z.eqb_eq in Hc. apply Z.leb_le in Hb.
  assert (Hr : round_pos prec emax (Zpos m) e = (Zpos m, e)).
  { unfold round_pos. change (Zdigits2 (Zpos m)) with (Zpos (digits2_pos m)).
    rewrite Hc, Z.sub_diag, Z.mul_1_r.
    destruct (Z.leb_spec (Zpos (digits2_pos m)) prec) as [H | H]; [reflexivity|].
    unfold SpecFloat.fexp in Hc. lia. }
  destruct s; simpl cond_Zopp; unfold binary_normalize;
    rewrite (binary_round_spec prec emax Hprec) by assumption;
    rewrite Hr; unfold pack; cbn [fst snd];
    now rewrite (proj2 (Z.leb_le _ _) Hb).
Qed.

Lemma shl_align_value :
  forall m e e',
    e' <= e -> Zpos (fst (shl_align m e e')) = Zpos m * 2 ^ (e - e').
Proof.
  intros m e e' H. unfold shl_align.
  destruct (e' - e) as [|p|p] eqn:E; try lia; cbn [fst].
  - replace (e - e') with 0 by lia. simpl. lia.
  - rewrite Pos_iter_xO. f_equal. f_equal. lia.
Qed.

(** A valid number as the rounding, at the lowest exponent, of its value. *)
Lemma SFvalue_round :
  forall x,
    SpecFloat.valid_binary prec emax x = true ->
    lex_lt (-2, 0, 0) (SFkey x) -> lex_lt (SFkey x) (2, 0, 0) ->
    x <> S754_nan ->
    SFkey x
    = SFkey (binary_normalize prec emax (SFvalue prec emax x)
                              (SpecFloat.emin prec emax) false).
Proof.
  intros x V H1 H2 Hn.
  destruct x as [s|s| |s m e]; try destruct s; simpl in H1, H2; try lia;
    try congruence; try reflexivity.
  all: pose proof (valid_binary_emin prec emax _ _ _ V) as He;
    rewrite <- (binary_normalize_valid _ _ _ V) at 1;
    rewrite <- (binary_normalize_scale _ e (e - SpecFloat.emin prec emax))
      by lia;
    replace (e - (e - SpecFloat.emin prec emax)) with (SpecFloat.emin prec emax)
      by lia;
    f_equal; f_equal; unfold SFvalue, cond_Zopp; ring.
Qed.


Lemma binary_normalize_number :
  forall M e,
    SpecFloat.emin prec emax <= e ->
    binary_normalize prec emax M e false <> S754_nan.
Proof.
  intros M e He. unfold binary_normalize.
  destruct M as [|m|m]; [discriminate| |];
    rewrite (binary_round_spec prec emax Hprec) by assumption;
    destruct (round_pos_mono prec emax Hprec (Zpos m) (Zpos m) e) as (Hp & _ & _);
    try lia;
    destruct (round_pos prec emax (Zpos m) e) as [n E]; cbn [fst] in Hp;
    apply (pack_key prec emax _ n E Hp).
Qed.

(** The mantissa bounds of a valid number. *)
Lemma valid_binary_bounds :
  forall s m e,
    SpecFloat.valid_binary prec emax (S754_finite s m e) = true ->
    Zpos m < 2 ^ prec /\
    (SpecFloat.emin prec emax < e -> 2 ^ (prec - 1) <= Zpos m).
Proof.
  intros s m e V.
  unfold SpecFloat.valid_binary, bounded, canonical_mantissa in V.
  apply andb_prop in V. destruct V as [Hc _]. apply Z.eqb_eq in Hc.
  pose proof (digits2_pos_bounds m) as [Hlo Hhi].
  unfold SpecFloat.fexp in Hc. split.
  - assert (2 ^ Zpos (digits2_pos m) <= 2 ^ prec)
      by (apply Z.pow_le_mono_r; lia).
    lia.
  - intros He. replace (Zpos (digits2_pos m)) with prec in Hlo by lia.
    assumption.
Qed.

Lemma valid_value_order :
  forall s1 m1 e1 s2 m2 e2,
    SpecFloat.valid_binary prec emax (S754_finite s1 m1 e1) = true ->
    SpecFloat.valid_binary prec emax (S754_finite s2 m2 e2) = true ->
    e1 < e2 ->
    Zpos m1 * 2 ^ (e1 - SpecFloat.emin prec emax)
    <= Zpos m2 * 2 ^ (e2 - SpecFloat.emin prec emax).
Proof.
  intros s1 m1 e1 s2 m2 e2 V1 V2 He.
  pose proof (valid_binary_emin prec emax _ _ _ V1) as He1.
  destruct (valid_binary_bounds _ _ _ V1) as [Hhi _].
  destruct (valid_binary_bounds _ _ _ V2) as [_ Hlo].
  specialize (Hlo ltac:(lia)).
  set (a := e1 - SpecFloat.emin prec emax).
  replace (e2 - SpecFloat.emin prec emax) with (a + 1 + (e2 - e1 - 1))
    by (unfold a; lia).
  rewrite !Z.pow_add_r by (unfold a; lia).
  assert (Ha : 0 < 2 ^ a) by (apply Z.pow_pos_nonneg; unfold a; lia).
  assert (Hb : 0 < 2 ^ (e2 - e1 - 1)) by (apply Z.pow_pos_nonneg; lia).
  assert (Hp : 2 ^ prec = 2 * 2 ^ (prec - 1)).
  { rewrite <- Z.pow_succ_r by lia. f_equal. lia. }
  rewrite Hp in Hhi.
  change (2 ^ 1) with 2.
  assert (H1 : Zpos m1 * 2 ^ a <= 2 * 2 ^ (prec - 1) * 2 ^ a) by nia.
  assert (H2 : 2 * 2 ^ (prec - 1) * 2 ^ a <= 2 * Zpos m2 * 2 ^ a) by nia.
  assert (H3 : 2 * Zpos m2 * 2 ^ a * 1
               <= 2 * Zpos m2 * 2 ^ a * 2 ^ (e2 - e1 - 1)).
  { apply Z.mul_le_mono_nonneg_l; nia. }
  nia.
Qed.

(** Among valid numbers, the order of the keys is the order of the values. *)
Lemma SFkey_value :
  forall x y,
    SpecFloat.valid_binary prec emax x = true ->
    SpecFloat.valid_binary prec emax y = true ->
    lex_le (SFkey x) (SFkey y) ->
    lex_lt (-2, 0, 0) (SFkey x) -> lex_lt (SFkey y) (2, 0, 0) ->
    x <> S754_nan -> y <> S754_nan ->
    SFvalue prec emax x <= SFvalue prec emax y.
Proof.
  intros x y Vx Vy Hle Hx Hy Nx Ny.
  destruct x as [sx|sx| |sx mx ex]; try destruct sx; simpl in Hx; try lia;
    try congruence;
    (destruct y as [sy|sy| |sy my ey]; try destruct sy; simpl in Hy, Hle; try lia;
     try congruence); unfold SFvalue, cond_Zopp; try lia.
  all: try (pose proof (valid_binary_emin prec emax _ _ _ Vx) as Ex;
            pose proof (Z.pow_pos_nonneg 2 (ex - SpecFloat.emin prec emax)
                          ltac:(lia) ltac:(lia)) as Px).
  all: try (pose proof (valid_binary_emin prec emax _ _ _ Vy) as Ey;
            pose proof (Z.pow_pos_nonneg 2 (ey - SpecFloat.emin prec emax)
                          ltac:(lia) ltac:(lia)) as Py).
  all: try nia.
  all: destruct (Z.lt_trichotomy ex ey) as [H | [H | H]]; try lia;
    try (subst ey; nia);
    try (pose proof (valid_value_order _ _ _ _ _ _ Vx Vy H); lia);
    try (pose proof (valid_value_order _ _ _ _ _ _ Vy Vx H); lia).
Qed.


Lemma pow2_split :
  forall e ez,
    SpecFloat.emin prec emax <= ez -> ez <= e ->
    2 ^ (e - SpecFloat.emin prec emax)
    = 2 ^ (e - ez) * 2 ^ (ez - SpecFloat.emin prec emax).
Proof.
  intros e ez H1 H2. rewrite <- Z.pow_add_r by lia. f_equal. lia.
Qed.

(** Differences and sums of valid finite numbers: the exact result of the
    values, rounded. *)
Lemma SFsub_value :
  forall x b,
    SpecFloat.valid_binary prec emax x = true ->
    SpecFloat.valid_binary prec emax b = true ->
    lex_lt (-2, 0, 0) (SFkey x) -> lex_lt (SFkey x) (2, 0, 0) ->
    x <> S754_nan ->
    lex_lt (-2, 0, 0) (SFkey b) -> lex_lt (SFkey b) (2, 0, 0) ->
    b <> S754_nan ->
    SFsub prec emax x b <> S754_nan /\
    SFkey (SFsub prec emax x b)
    = SFkey (binary_normalize prec emax
               (SFvalue prec emax x - SFvalue prec emax b)
               (SpecFloat.emin prec emax) false).
Proof.
  intros x b Vx Vb Hx1 Hx2 Nx Hb1 Hb2 Nb.
  destruct x as [sx|sx| |sx mx ex]; try (destruct sx; simpl in Hx1, Hx2; lia);
    try congruence;
    (destruct b as [sb|sb| |sb mb eb]; try (destruct sb; simpl in Hb1, Hb2; lia);
     try congruence).
  - destruct sx, sb; split; try discriminate; reflexivity.
  - split; [discriminate|].
    cbn [SFsub].
    rewrite (SFvalue_round (S754_finite (negb sb) mb eb)); try discriminate.
    + f_equal. f_equal. destruct sb; unfold SFvalue, cond_Zopp; cbn [negb]; lia.
    + exact Vb.
    + destruct sb; simpl; lia.
    + destruct sb; simpl; lia.
  - split; [destruct sx; discriminate|].
    replace (SFsub prec emax (S754_finite sx mx ex) (S754_zero sb))
      with (S754_finite sx mx ex) by (destruct sx; reflexivity).
    rewrite (SFvalue_round (S754_finite sx mx ex)); try assumption.
    f_equal. f_equal. unfold SFvalue at 3. lia.
  - pose proof (valid_binary_emin prec emax _ _ _ Vx) as Ex.
    pose proof (valid_binary_emin prec emax _ _ _ Vb) as Eb.
    unfold SFsub. cbv zeta. set (ez := Z.min ex eb).
    assert (Hez : SpecFloat.emin prec emax <= ez /\ ez <= ex /\ ez <= eb)
      by (unfold ez; lia).
    split; [apply binary_normalize_number; lia|].
    rewrite <- (binary_normalize_scale _ ez (ez - SpecFloat.emin prec emax))
      by lia.
    replace (ez - (ez - SpecFloat.emin prec emax)) with (SpecFloat.emin prec emax)
      by lia.
    f_equal. f_equal.
    unfold SFvalue. rewrite (pow2_split ex ez), (pow2_split eb ez) by lia.
    destruct sx, sb; unfold cond_Zopp; rewrite !shl_align_value by lia; ring.
Qed.

Lemma SFadd_value :
  forall x b,
    SpecFloat.valid_binary prec emax x = true ->
    SpecFloat.valid_binary prec emax b = true ->
    lex_lt (-2, 0, 0) (SFkey x) -> lex_lt (SFkey x) (2, 0, 0) ->
    x <> S754_nan ->
    lex_lt (-2, 0, 0) (SFkey b) -> lex_lt (SFkey b) (2, 0, 0) ->
    b <> S754_nan ->
    SFadd prec emax x b <> S754_nan /\
    SFkey (SFadd prec emax x b)
    = SFkey (binary_normalize prec emax
               (SFvalue prec emax x + SFvalue prec emax b)
               (SpecFloat.emin prec emax) false).
Proof.
  intros x b Vx Vb Hx1 Hx2 Nx Hb1 Hb2 Nb.
  destruct x as [sx|sx| |sx mx ex]; try (destruct sx; simpl in Hx1, Hx2; lia);
    try congruence;
    (destruct b as [sb|sb| |sb mb eb]; try (destruct sb; simpl in Hb1, Hb2; lia);
     try congruence).
  - destruct sx, sb; split; try discriminate; reflexivity.
  - split; [discriminate|].
    replace (SFadd prec emax (S754_zero sx) (S754_finite sb mb eb))
      with (S754_finite sb mb eb) by (destruct sx; reflexivity).
    rewrite (SFvalue_round (S754_finite sb mb eb)); try assumption.
    reflexivity.
  - split; [destruct sx; discriminate|].
    replace (SFadd prec emax (S754_finite sx mx ex) (S754_zero sb))
      with (S754_finite sx mx ex) by (destruct sx; reflexivity).
    rewrite (SFvalue_round (S754_finite sx mx ex)); try assumption.
    f_equal. f_equal. unfold SFvalue at 3. lia.
  - pose proof (valid_binary_emin prec emax _ _ _ Vx) as Ex.
    pose proof (valid_binary_emin prec emax _ _ _ Vb) as Eb.
    unfold SFadd. cbv zeta. set (ez := Z.min ex eb).
    assert (Hez : SpecFloat.emin prec emax <= ez /\ ez <= ex /\ ez <= eb)
      by (unfold ez; lia).
    split; [apply binary_normalize_number; lia|].
    rewrite <- (binary_normalize_scale _ ez (ez - SpecFloat.emin prec emax))
      by lia.
    replace (ez - (ez - SpecFloat.emin prec emax)) with (SpecFloat.emin prec emax)
      by lia.
    f_equal. f_equal.
    unfold SFvalue. rewrite (pow2_split ex ez), (pow2_split eb ez) by lia.
    destruct sx, sb; unfold cond_Zopp; rewrite !shl_align_value by lia; ring.
Qed.


Lemma SFkey_top : forall f, lex_le (SFkey f) (2, 0, 0).
Proof. intros [[|]|[|]| |[|] m e]; simpl; lia. Qed.

Lemma SFkey_bottom : forall f, f <> S754_nan -> lex_le (-2, 0, 0) (SFkey f).
Proof. intros [[|]|[|]| |[|] m e] H; simpl; try lia. Qed.

(** Subtracting, or adding, one finite number keeps the order. *)
Lemma SFsub_mono_l :
  forall x y b,
    SpecFloat.valid_binary prec emax x = true ->
    SpecFloat.valid_binary prec emax y = true ->
    SpecFloat.valid_binary prec emax b = true ->
    x <> S754_nan -> y <> S754_nan -> b <> S754_nan ->
    lex_le (SFkey x) (SFkey y) ->
    lex_lt (-2, 0, 0) (SFkey b) -> lex_lt (SFkey b) (2, 0, 0) ->
    SFleb (SFsub prec emax x b) (SFsub prec emax y b) = true.
Proof.
  intros x y b Vx Vy Vb Nx Ny Nb Hle Hb1 Hb2.
  assert (Hinf : forall s, SFsub prec emax (S754_infinity s) b = S754_infinity s).
  { intros s. destruct b as [sb|sb| |sb mb eb]; try congruence;
      try (destruct sb; simpl in Hb1, Hb2; lia); reflexivity. }
  assert (Hord : forall z,
             SpecFloat.valid_binary prec emax z = true -> z <> S754_nan ->
             SFsub prec emax z b <> S754_nan /\
             ((lex_lt (-2, 0, 0) (SFkey z) /\ lex_lt (SFkey z) (2, 0, 0) /\
               SFkey (SFsub prec emax z b)
               = SFkey (binary_normalize prec emax
                          (SFvalue prec emax z - SFvalue prec emax b)
                          (SpecFloat.emin prec emax) false)) \/
              exists s, z = S754_infinity s)).
  { intros z Vz Nz.
    destruct z as [sz|sz| |sz mz ez]; try congruence.
    - destruct (SFsub_value (S754_zero sz) b) as [H1 H2]; try assumption;
        try (simpl; lia).
      split; [assumption|]. left. repeat split; try assumption; simpl; lia.
    - rewrite Hinf. split; [discriminate|]. right. now exists sz.
    - destruct (SFsub_value (S754_finite sz mz ez) b) as [H1 H2];
        try assumption; try (destruct sz; simpl; lia).
      split; [assumption|]. left.
      repeat split; try assumption; destruct sz; simpl; lia. }
  destruct (Hord x Vx Nx) as [Rx [(Hx1 & Hx2 & Kx) | [sx ->]]];
    destruct (Hord y Vy Ny) as [Ry [(Hy1 & Hy2 & Ky) | [sy ->]]];
    apply SFleb_key; repeat split; try assumption.
  - rewrite Kx, Ky.
    assert (Hv : SFvalue prec emax x - SFvalue prec emax b
                 <= SFvalue prec emax y - SFvalue prec emax b).
    { pose proof (SFkey_value x y Vx Vy Hle Hx1 Hy2 Nx Ny). lia. }
    pose proof (binary_normalize_mono prec emax Hprec _ _
                  (SpecFloat.emin prec emax) (Z.le_refl _) Hv) as Hm.
    apply SFleb_key in Hm. tauto.
  - rewrite Hinf. destruct sy.
    + simpl in Hle. destruct (SFkey x) as [[a c] d]. simpl in *. lia.
    + apply SFkey_top.
  - rewrite Hinf. destruct sx.
    + now apply SFkey_bottom.
    + destruct (SFkey y) as [[a c] d]. simpl in *. lia.
  - rewrite !Hinf. exact Hle.
Qed.

Lemma SFadd_mono_l :
  forall x y b,
    SpecFloat.valid_binary prec emax x = true ->
    SpecFloat.valid_binary prec emax y = true ->
    SpecFloat.valid_binary prec emax b = true ->
    x <> S754_nan -> y <> S754_nan -> b <> S754_nan ->
    lex_le (SFkey x) (SFkey y) ->
    lex_lt (-2, 0, 0) (SFkey b) -> lex_lt (SFkey b) (2, 0, 0) ->
    SFleb (SFadd prec emax x b) (SFadd prec emax y b) = true.
Proof.
  intros x y b Vx Vy Vb Nx Ny Nb Hle Hb1 Hb2.
  assert (Hinf : forall s, SFadd prec emax (S754_infinity s) b = S754_infinity s).
  { intros s. destruct b as [sb|sb| |sb mb eb]; try congruence;
      try (destruct sb; simpl in Hb1, Hb2; lia); reflexivity. }
  assert (Hord : forall z,
             SpecFloat.valid_binary prec emax z = true -> z <> S754_nan ->
             SFadd prec emax z b <> S754_nan /\
             ((lex_lt (-2, 0, 0) (SFkey z) /\ lex_lt (SFkey z) (2, 0, 0) /\
               SFkey (SFadd prec emax z b)
               = SFkey (binary_normalize prec emax
                          (SFvalue prec emax z + SFvalue prec emax b)
                          (SpecFloat.emin prec emax) false)) \/
              exists s, z = S754_infinity s)).
  { intros z Vz Nz.
    destruct z as [sz|sz| |sz mz ez]; try congruence.
    - destruct (SFadd_value (S754_zero sz) b) as [H1 H2]; try assumption;
        try (simpl; lia).
      split; [assumption|]. left. repeat split; try assumption; simpl; lia.
    - rewrite Hinf. split; [discriminate|]. right. now exists sz.
    - destruct (SFadd_value (S754_finite sz mz ez) b) as [H1 H2];
        try assumption; try (destruct sz; simpl; lia).
      split; [assumption|]. left.
      repeat split; try assumption; destruct sz; simpl; lia. }
  destruct (Hord x Vx Nx) as [Rx [(Hx1 & Hx2 & Kx) | [sx ->]]];
    destruct (Hord y Vy Ny) as [Ry [(Hy1 & Hy2 & Ky) | [sy ->]]];
    apply SFleb_key; repeat split; try assumption.
  - rewrite Kx, Ky.
    assert (Hv : SFvalue prec emax x + SFvalue prec emax b
                 <= SFvalue prec emax y + SFvalue prec emax b).
    { pose proof (SFkey_value x y Vx Vy Hle Hx1 Hy2 Nx Ny). lia. }
    pose proof (binary_normalize_mono prec emax Hprec _ _
                  (SpecFloat.emin prec emax) (Z.le_refl _) Hv) as Hm.
    apply SFleb_key in Hm. tauto.
  - rewrite Hinf. destruct sy.
    + simpl in Hle. destruct (SFkey x) as [[a c] d]. simpl in *. lia.
    + apply SFkey_top.
  - rewrite Hinf. destruct sx.
    + now apply SFkey_bottom.
    + destruct (SFkey y) as [[a c] d]. simpl in *. lia.
  - rewrite !Hinf. exact Hle.
Qed.

End MoreRounding.

(** On the primitive floats. *)
Lemma sub_mono_l :
  forall x y b,
    (x <=? y)%float = true ->
    (neg_infinity <? b)%float = true ->
    (b <? infinity)%float = true ->
    (x - b <=? y - b)%float = true.
Proof.
  intros x y b Hle Hb1 Hb2.
  apply leb_key in Hle. apply ltb_key in Hb1, Hb2.
  destruct Hle as (Nx & Ny & Hle), Hb1 as (_ & Nb & Hb1), Hb2 as (_ & _ & Hb2).
  rewrite leb_spec, !sub_spec.
  apply (SFsub_mono_l prec emax); try assumption; try apply Prim2SF_valid.
  reflexivity.
Qed.

Lemma add_mono_l :
  forall x y b,
    (x <=? y)%float = true ->
    (neg_infinity <? b)%float = true ->
    (b <? infinity)%float = true ->
    (x + b <=? y + b)%float = true.
Proof.
  intros x y b Hle Hb1 Hb2.
  apply leb_key in Hle. apply ltb_key in Hb1, Hb2.
  destruct Hle as (Nx & Ny & Hle), Hb1 as (_ & Nb & Hb1), Hb2 as (_ & _ & Hb2).
  rewrite leb_spec, !add_spec.
  apply (SFadd_mono_l prec emax); try assumption; try apply Prim2SF_valid.
  reflexivity.
Qed.

(** ** The safety envelope *)

(** X19. A longer safe distance never makes the filter more lenient: with
    a finite buffer, a gap judged unsafe against a safe distance is judged
    unsafe against every safe distance at least as long, with the same
    memory.  Rounding of the thresholds is covered. *)
Theorem HysteresisFilter_safe_monotone :
  forall gap safe safe' buffer was_blocking,
    (safe <=? safe')%float = true ->
    (neg_infinity <? buffer)%float = true ->
    (buffer <? infinity)%float = true ->
    HysteresisFilter gap safe buffer was_blocking = true ->
    HysteresisFilter gap safe' buffer was_blocking = true.
Proof.
  intros gap safe safe' buffer [|] Hle Hb1 Hb2 H; unfold HysteresisFilter in *.
  - exact (ltb_leb_trans _ _ _ H (add_mono_l _ _ _ Hle Hb1 Hb2)).
  - exact (ltb_leb_trans _ _ _ H (sub_mono_l _ _ _ Hle Hb1 Hb2)).
Qed.

Lemma HysteresisFilter_safe_monotone_witness :
  HysteresisFilter 7 50 0.5 false = true.
Proof.
  apply (HysteresisFilter_safe_monotone 7 8 50 0.5 false); reflexivity.
Defined.

(** A gap below a floor of the safe distance, less the buffer, is judged
    unsafe whatever the memory is. *)
Lemma HysteresisFilter_below_floor :
  forall gap floor safe was_blocking,
    (floor <=? safe)%float = true ->
    (gap <? floor - kDistanceBuffer)%float = true ->
    HysteresisFilter gap safe kDistanceBuffer was_blocking = true.
Proof.
  intros gap floor safe was_blocking Hfloor Hgap.
  assert (H : HysteresisFilter gap safe kDistanceBuffer false = true).
  { unfold HysteresisFilter.
    apply (ltb_leb_trans _ _ _ Hgap).
    apply sub_mono_l; [assumption | reflexivity | reflexivity]. }
  destruct was_blocking; [|assumption].
  apply HysteresisFilter_latch; [reflexivity | reflexivity | assumption].
Qed.

(** X20. Obstacles inside the envelope always block.  Whatever the speeds,
    the headings and the obstacle's previous flag are, an obstacle whose
    backward gap [ego_start_s - obstacle_end_s] is below 0.5 and whose
    forward gap [obstacle_start_s - ego_end_s] is below 5.5 blocks: this
    covers every obstacle that overlaps the vehicle along the path.  For an
    obstacle judged to move in the same direction the backward bound is 7.5;
    for one judged to move in the opposite direction the forward bound is
    49.5. *)
Theorem blocks_inside_envelope :
  forall NormalizeAngle info o,
    let backward_gap := (ego_start_s info - box_end_s (sl_box info o))%float in
    let forward_gap := (box_start_s (sl_box info o) - ego_end_s info)%float in
    ((backward_gap <? 0.5)%float = true ->
     (forward_gap <? 5.5)%float = true ->
     blocks NormalizeAngle info o = true) /\
    (same_direction NormalizeAngle info o = true ->
     (backward_gap <? 7.5)%float = true ->
     (forward_gap <? 5.5)%float = true ->
     blocks NormalizeAngle info o = true) /\
    (same_direction NormalizeAngle info o = false ->
     (backward_gap <? 0.5)%float = true ->
     (forward_gap <? 49.5)%float = true ->
     blocks NormalizeAngle info o = true).
Proof.
  intros NormalizeAngle info o backward_gap forward_gap.
  destruct (safe_distance_floors_hold NormalizeAngle info o)
    as (F6 & F50 & B1 & B8).
  unfold blocks. fold backward_gap forward_gap.
  split; [|split].
  - intros Hb Hf. apply andb_true_intro. split.
    + apply (HysteresisFilter_below_floor _ 1%float); assumption.
    + apply (HysteresisFilter_below_floor _ 6%float); assumption.
  - intros Hsame Hb Hf. apply andb_true_intro. split.
    + apply (HysteresisFilter_below_floor _ 8%float); [now apply B8 | assumption].
    + apply (HysteresisFilter_below_floor _ 6%float); assumption.
  - intros Hopp Hb Hf. apply andb_true_intro. split.
    + apply (HysteresisFilter_below_floor _ 1%float); assumption.
    + apply (HysteresisFilter_below_floor _ 50%float); [now apply F50 | assumption].
Qed.

Lemma blocks_inside_envelope_witness :
  blocks sample_angle sample_scene obstacle_near = true.
Proof.
  apply (proj1 (blocks_inside_envelope sample_angle sample_scene obstacle_near));
    reflexivity.
Defined.

(** X21. The scan vetoes a lane change past an obstacle inside the
    envelope.  With one obstacle per id, if some obstacle of the candidate
    is not passed over and has its backward gap below 0.5 and its forward
    gap below 5.5, [IsClearToChangeLane] returns [false], whatever the other
    obstacles, the speeds and the flags are. *)
Theorem IsClearToChangeLane_vetoes_inside_envelope :
  forall NormalizeAngle info o,
    NoDup (map Id (obstacles (path_decision info))) ->
    In o (obstacles (path_decision info)) ->
    skipped info o = false ->
    (ego_start_s info - box_end_s (sl_box info o) <? 0.5)%float = true ->
    (box_start_s (sl_box info o) - ego_end_s info <? 5.5)%float = true ->
    fst (IsClearToChangeLane NormalizeAngle info) = false.
Proof.
  intros NormalizeAngle info o Hnd Hin Hs Hb Hf.
  rewrite (IsClearToChangeLane_outcome NormalizeAngle info Hnd).
  pose proof (scan_outcome_verdict NormalizeAngle info
                (obstacles (path_decision info))) as [_ Hv].
  destruct (scan_outcome NormalizeAngle info (obstacles (path_decision info)))
    as [[ok obs] w].
  cbn [fst] in *. apply Hv. unfold has_blocker. apply Exists_exists.
  exists o. repeat split; try assumption.
  destruct (safe_distance_floors_hold NormalizeAngle info o) as (F6 & _ & B1 & _).
  unfold blocks. apply andb_true_intro. split.
  - apply (HysteresisFilter_below_floor _ 1%float); assumption.
  - apply (HysteresisFilter_below_floor _ 6%float); assumption.
Qed.

Lemma IsClearToChangeLane_vetoes_inside_envelope_witness :
  fst (IsClearToChangeLane sample_angle sample_scene) = false.
Proof.
  apply (IsClearToChangeLane_vetoes_inside_envelope
           sample_angle sample_scene obstacle_near).
  - repeat constructor; simpl; intuition discriminate.
  - simpl. tauto.
  - reflexivity.
  - reflexivity.
  - reflexivity.
Defined.

(** ** Across cycles *)

(** X22. Debounce after a completed maneuver.  With the reckless flag
    unset and [IN_CHANGE_LANE] on record, a call with a single candidate
    succeeds and puts [CHANGE_LANE_SUCCESS] with that candidate's path id and
    the clock's reading on record.  A later call that offers more than one
    candidate, with a current candidate carrying a path id, while the time
    since that reading is strictly below the success freeze time, succeeds,
    removes every change-lane candidate and leaves the planning context of
    the first call as it is. *)
Theorem Apply_debounce_after_completion :
  forall flags now now' c l ctx cur,
    FLAGS_reckless_change_lane flags = false ->
    status (change_lane ctx) = Some IN_CHANGE_LANE ->
    1 < List.length l ->
    current_candidate l = Some cur ->
    Lanes_Id cur <> "" ->
    (now' - now <? FLAGS_change_lane_success_freeze_time flags)%float = true ->
    exists ctx1,
      Apply flags now [c] ctx = (true, [c], ctx1) /\
      change_lane ctx1
      = mkChangeLaneStatus (Some CHANGE_LANE_SUCCESS) (Lanes_Id c) now /\
      Apply flags now' l ctx1 = (true, Discarded l, ctx1).
Proof.
  intros flags now now' c l ctx cur Hreck Hst Hlen Hcur Hid Hfreeze.
  exists (UpdateStatus now CHANGE_LANE_SUCCESS (Lanes_Id c) ctx).
  split; [|split].
  - unfold Apply. rewrite Hreck. unfold has_status, status_is. now rewrite Hst.
  - reflexivity.
  - rewrite (Apply_offered flags now' l
               (UpdateStatus now CHANGE_LANE_SUCCESS (Lanes_Id c) ctx)
               CHANGE_LANE_SUCCESS cur Hreck eq_refl Hlen Hcur Hid).
    cbn [UpdateStatus change_lane timestamp].
    now rewrite Hfreeze, RemoveChangeLane_Discarded.
Qed.

Lemma Apply_debounce_after_completion_witness :
  exists ctx1,
    Apply (sample_flags false) 10 [lane_B]
          (sample_context (Some IN_CHANGE_LANE) "A" 0)
    = (true, [lane_B], ctx1) /\
    change_lane ctx1 = mkChangeLaneStatus (Some CHANGE_LANE_SUCCESS) "B" 10 /\
    Apply (sample_flags false) 12 [lane_A; lane_B] ctx1 = (true, [lane_A], ctx1).
Proof.
  apply (Apply_debounce_after_completion (sample_flags false) 10 12 lane_B
           [lane_A; lane_B] (sample_context (Some IN_CHANGE_LANE) "A" 0) lane_A);
    [reflexivity | reflexivity | simpl; lia | reflexivity | discriminate
    | reflexivity].
Defined.

(** ** The scan, obstacle by obstacle *)

Lemma mark_clear_flag :
  forall info l,
    map IsLaneChangeBlocking (map (mark_clear info) l)
    = map (fun o => if skipped info o then IsLaneChangeBlocking o else false) l.
Proof.
  intros info l. rewrite map_map. apply map_ext. intros o. unfold mark_clear.
  now destruct (skipped info o).
Qed.

Lemma has_blocker_exists :
  forall NormalizeAngle info l,
    has_blocker NormalizeAngle info l <->
    exists o, In o l /\ skipped info o = false /\
              blocks NormalizeAngle info o = true.
Proof. intros. unfold has_blocker. apply Exists_exists. Qed.


(** C4, as the code has it. With one obstacle per id, [IsClearToChangeLane]
    scans the obstacles in order and passes over the virtual ones, the
    static ones and, on a change-lane path, those wholly outside the lateral
    corridor.  It returns [false] exactly when, for some obstacle not passed
    over, the hysteresis filter judges both the backward gap
    [ego_start_s - obstacle_end_s] and the forward gap
    [obstacle_start_s - ego_end_s] unsafe, with the obstacle's previous flag
    as memory.  At the first such obstacle the flag of that obstacle is
    [true] after the scan, the flags of the evaluated obstacles before it
    are [false], the flags of the obstacles passed over and of those after
    it are as before, and the writes are the clearing ones followed by the
    blocking one.  With no such obstacle the scan returns [true], the flag
    of every evaluated obstacle is [false] and the others are as before.
    The scan keeps the obstacles and their order. *)
Theorem IsClearToChangeLane_first_blocker :
  forall NormalizeAngle info,
    NoDup (map Id (obstacles (path_decision info))) ->
    let both_unsafe o :=
      HysteresisFilter
        (ego_start_s info - box_end_s (sl_box info o))%float
        (kBackwardSafeDistance NormalizeAngle info o) kDistanceBuffer
        (IsLaneChangeBlocking o)
      && HysteresisFilter
           (box_start_s (sl_box info o) - ego_end_s info)%float
           (kForwardSafeDistance NormalizeAngle info o) kDistanceBuffer
           (IsLaneChangeBlocking o) in
    let flag_cleared o :=
      if skipped info o then IsLaneChangeBlocking o else false in
    let clearing_writes l :=
      map (fun o => (Id o, false))
          (filter (fun o => negb (skipped info o)) l) in
    let before := path_decision info in
    let after := snd (IsClearToChangeLane NormalizeAngle info) in
    map Id (obstacles after) = map Id (obstacles before) /\
    (fst (IsClearToChangeLane NormalizeAngle info) = false <->
     exists o, In o (obstacles before) /\ skipped info o = false /\
               both_unsafe o = true) /\
    (forall pre o post,
        obstacles before = pre ++ o :: post ->
        (forall p, In p pre -> skipped info p = false ->
                   both_unsafe p = false) ->
        skipped info o = false ->
        both_unsafe o = true ->
        fst (IsClearToChangeLane NormalizeAngle info) = false /\
        map IsLaneChangeBlocking (obstacles after)
        = map flag_cleared pre ++ true :: map IsLaneChangeBlocking post /\
        blocking_writes after
        = (Id o, true) :: rev (clearing_writes pre) ++ blocking_writes before) /\
    ((forall p, In p (obstacles before) -> skipped info p = false ->
                both_unsafe p = false) ->
     fst (IsClearToChangeLane NormalizeAngle info) = true /\
     map IsLaneChangeBlocking (obstacles after)
     = map flag_cleared (obstacles before) /\
     blocking_writes after
     = rev (clearing_writes (obstacles before)) ++ blocking_writes before).
Proof.
  intros NA info Hnd both_unsafe flag_cleared clearing_writes before after.
  subst before after.
  split; [exact (IsClearToChangeLane_keeps_ids NA info Hnd)|].
  rewrite (IsClearToChangeLane_outcome NA info Hnd).
  split; [|split].
  - pose proof (scan_outcome_verdict NA info (obstacles (path_decision info)))
      as [_ Hv].
    destruct (scan_outcome NA info (obstacles (path_decision info)))
      as [[ok obs] w].
    cbn [fst] in *. rewrite Hv. apply has_blocker_exists.
  - intros pre o post Hobs Hpre Hs Hb. rewrite Hobs.
    assert (Hno : no_blocker NA info pre) by (apply Forall_forall; exact Hpre).
    pose proof (scan_outcome_blocked NA info pre o post Hno Hs Hb) as H.
    pose proof (scan_outcome_journal_blocked NA info pre o post Hno Hs Hb) as Hw.
    destruct (scan_outcome NA info (pre ++ o :: post)) as [[ok obs] w].
    cbn [fst snd obstacles blocking_writes] in *.
    injection H as -> ->. subst w.
    split; [reflexivity|]. split.
    + rewrite map_app, mark_clear_flag. reflexivity.
    + rewrite rev_app_distr. reflexivity.
  - intros Hall.
    assert (Hno : no_blocker NA info (obstacles (path_decision info)))
      by (apply Forall_forall; exact Hall).
    pose proof (scan_outcome_clear NA info _ Hno) as H.
    pose proof (scan_outcome_journal_clear NA info _ Hno) as Hw.
    destruct (scan_outcome NA info (obstacles (path_decision info)))
      as [[ok obs] w].
    cbn [fst snd obstacles blocking_writes] in *.
    injection H as -> ->. subst w.
    split; [reflexivity|]. split; [apply mark_clear_flag | reflexivity].
Qed.

Lemma IsClearToChangeLane_first_blocker_witness :
  fst (IsClearToChangeLane sample_angle sample_scene) = false /\
  map IsLaneChangeBlocking
      (obstacles (snd (IsClearToChangeLane sample_angle sample_scene)))
  = [true; false; true; true] /\
  blocking_writes (snd (IsClearToChangeLane sample_angle sample_scene))
  = [("near", true); ("far", false)].
Proof.
  destruct (IsClearToChangeLane_first_blocker sample_angle sample_scene)
    as (_ & _ & Hfirst & _).
  - repeat constructor; simpl; intuition discriminate.
  - apply (Hfirst [obstacle_parked; obstacle_far] obstacle_near [obstacle_late]).
    + reflexivity.
    + intros p [<- | [<- | []]]; [discriminate | reflexivity].
    + reflexivity.
    + reflexivity.
Defined.

(** C4 as stated fails: on a change-lane candidate, a moving obstacle
    beside the vehicle but two lanes away is neither virtual nor static and
    both hysteresis checks judge its gap unsafe; yet the scan passes it
    over, returns [true] and writes no flag. *)
Lemma IsClearToChangeLane_passes_over_side_obstacle :
  IsVirtual obstacle_side = false /\
  IsStatic obstacle_side = false /\
  HysteresisFilter
    (ego_start_s sample_scene_side
     - box_end_s (sl_box sample_scene_side obstacle_side))%float
    (kBackwardSafeDistance sample_angle sample_scene_side obstacle_side)
    kDistanceBuffer (IsLaneChangeBlocking obstacle_side) = true /\
  HysteresisFilter
    (box_start_s (sl_box sample_scene_side obstacle_side)
     - ego_end_s sample_scene_side)%float
    (kForwardSafeDistance sample_angle sample_scene_side obstacle_side)
    kDistanceBuffer (IsLaneChangeBlocking obstacle_side) = true /\
  (kLateralShift <? box_start_l (sl_box sample_scene_side obstacle_side))%float
  = true /\
  IsClearToChangeLane sample_angle sample_scene_side
  = (true, mkPathDecision [obstacle_side] []).
Proof. repeat split. Qed.

(** ** Writes per cycle, branch by branch *)




